(** * patito/polars.py: schema-aware frame operations

    A shallow embedding of [LazyFrame] and [DataFrame] of
    [src/patito/polars.py] (derive, unalias, cast, fill_null, get) over a
    small executable model of the columnar engine they orchestrate. *)

From Stdlib Require Import Ascii String List ZArith Bool Arith Lia Permutation.
From Stdlib Require Import Decimal DecimalString.
Import ListNotations.
Open Scope string_scope.
Open Scope nat_scope.
Open Scope list_scope.
Set Warnings "-register-all".

(** ** Outcomes of a call

    A Python call returns, raises, or (for the unbounded recursion of
    [_derive_column] on a cyclic schema) never comes back; the last case is
    what a fuel-indexed run reports as [OutOfFuel]. *)

(** An element of [AliasPath.path]. *)
Inductive PathItem : Type :=
| PathStr (s : string)
| PathInt (i : Z).

(** [NotImplementedError msg first rest] carries the message
    [f"{msg} ({va})"], [va] being the [AliasPath] of the path
    [first :: rest]; the text of its [repr] is not spelled out. *)
Inductive Error : Type :=
| ColumnNotFoundError (name : string)
| DuplicateError (name : string)
| ShapeError
| SchemaError
| InvalidOperationError
| TypeError (msg : string)
| NotImplementedError (msg : string) (first : string) (rest : list PathItem)
| AttributeError (msg : string)
| RowDoesNotExist (msg : string)
| MultipleRowsReturned (msg : string).

Inductive Res (A : Type) : Type :=
| Ok (a : A)
| Raise (e : Error)
| OutOfFuel.

Arguments Ok {A} a.
Arguments Raise {A} e.
Arguments OutOfFuel {A}.

Definition bind {A B : Type} (c : Res A) (k : A -> Res B) : Res B :=
  match c with
  | Ok a => k a
  | Raise e => Raise e
  | OutOfFuel => OutOfFuel
  end.

Notation "x <- c ;; k" := (bind c (fun x => k))
  (at level 61, c at next level, right associativity).
Notation "' pat <- c ;; k" := (bind c (fun x => match x with pat => k end))
  (at level 61, pat pattern, c at next level, right associativity).

Fixpoint mapM {A B : Type} (f : A -> Res B) (l : list A) : Res (list B) :=
  match l with
  | [] => Ok []
  | x :: xs => y <- f x ;; ys <- mapM f xs ;; Ok (y :: ys)
  end.

Definition mem (x : string) (l : list string) : bool :=
  existsb (String.eqb x) l.

(** ** The columnar engine (polars), as far as the operations use it *)

Module Polars.

Inductive DType : Type :=
| Int64
| UInt8
| UInt16
| Utf8
| Boolean
| ListOf (inner : DType).

Definition DType_eq_dec (a b : DType) : {a = b} + {a <> b}.
Proof. decide equality. Defined.

Definition dtype_eqb (a b : DType) : bool :=
  if DType_eq_dec a b then true else false.

Definition dtype_in (d : DType) (l : list DType) : bool :=
  existsb (dtype_eqb d) l.

Inductive Value : Type :=
| VNull
| VInt (z : Z)
| VStr (s : string)
| VBool (b : bool)
| VList (items : list Value).

Definition is_null (v : Value) : bool :=
  match v with VNull => true | _ => false end.

Record Series : Type := mkSeries { dtype : DType; values : list Value }.

(** A frame is its columns in order; polars keeps the names distinct. *)
Definition Frame : Type := list (string * Series).

Definition names (f : Frame) : list string := map fst f.

Definition dtypes (f : Frame) : list DType := map (fun c => dtype (snd c)) f.

Definition height (f : Frame) : nat :=
  match f with
  | [] => 0
  | (_, s) :: _ => List.length (values s)
  end.

Fixpoint lookup (name : string) (f : Frame) : option Series :=
  match f with
  | [] => None
  | (n, s) :: rest => if String.eqb name n then Some s else lookup name rest
  end.

(** *** Casting *)

Definition int_range (dt : DType) : option (Z * Z) :=
  match dt with
  | Int64 => Some (- 2 ^ 63, 2 ^ 63 - 1)%Z
  | UInt8 => Some (0, 255)%Z
  | UInt16 => Some (0, 65535)%Z
  | _ => None
  end.

Definition in_range (r : Z * Z) (z : Z) : bool :=
  (fst r <=? z)%Z && (z <=? snd r)%Z.

(** The digits of a string cast to an integer: one sign at most, [+] or
    [-], then one digit at least and digits only. *)
Definition parse_digits (s : string) : option Z :=
  match s with
  | EmptyString => None
  | _ => option_map Z.of_uint (NilEmpty.uint_of_string s)
  end.

Definition parse_int (s : string) : option Z :=
  match s with
  | String "+"%char rest => parse_digits rest
  | String "-"%char rest => option_map Z.opp (parse_digits rest)
  | _ => parse_digits s
  end.

Definition show_int (z : Z) : string := NilZero.string_of_int (Z.to_int z).

Definition show_nat (n : nat) : string := NilZero.string_of_uint (Nat.to_uint n).

Fixpoint traverse {A B : Type} (f : A -> option B) (l : list A) : option (list B) :=
  match l with
  | [] => Some []
  | x :: xs =>
      match f x, traverse f xs with
      | Some y, Some ys => Some (y :: ys)
      | _, _ => None
      end
  end.

(** [cast_value dt v] is the strict cast of one value: [None] when [v] is
    not representable in [dt]; null casts to null. *)
Fixpoint cast_value (dt : DType) (v : Value) : option Value :=
  match v with
  | VNull => Some VNull
  | _ =>
      match dt with
      | ListOf inner =>
          match v with
          | VList items => option_map VList (traverse (cast_value inner) items)
          | _ => None
          end
      | Utf8 =>
          match v with
          | VStr s => Some (VStr s)
          | VInt z => Some (VStr (show_int z))
          | VBool b => Some (VStr (if b then "true" else "false"))
          | _ => None
          end
      | Boolean =>
          match v with
          | VBool b => Some (VBool b)
          | VInt z => Some (VBool (negb (z =? 0)%Z))
          | _ => None
          end
      | _ =>
          match int_range dt with
          | None => None
          | Some r =>
              let check z := if in_range r z then Some (VInt z) else None in
              match v with
              | VInt z => check z
              | VBool b => check (if b then 1 else 0)%Z
              | VStr s => match parse_int s with Some z => check z | None => None end
              | _ => None
              end
          end
      end
  end.

Definition cast_series (dt : DType) (s : Series) : Res Series :=
  match traverse (cast_value dt) (values s) with
  | Some vs => Ok (mkSeries dt vs)
  | None => Raise InvalidOperationError
  end.

(** [pl.Series(name, values, dtype)] *)
Definition Series_new (vs : list Value) (dt : DType) : Res Series :=
  cast_series dt (mkSeries dt vs).

(** *** Null filling and element-wise operations *)

(** A one-element operand stands for a scalar and is repeated. *)
Definition broadcast (n : nat) (ys : list Value) : list Value :=
  match ys with
  | [y] => repeat y n
  | _ => ys
  end.

Definition shape_ok (n : nat) (ys : list Value) : bool :=
  (List.length ys =? n) || (List.length ys =? 1).

Fixpoint fill_zip (xs ys : list Value) : list Value :=
  match xs, ys with
  | x :: xs', y :: ys' => (if is_null x then y else x) :: fill_zip xs' ys'
  | _, _ => xs
  end.

(** [xs.fill_null(ys)]: the entries of [xs], its nulls replaced by the
    entries of [ys] in the same rows. *)
Definition fill_null_values (xs ys : list Value) : list Value :=
  fill_zip xs (broadcast (List.length xs) ys).

(** The dtype two columns are brought to before they are combined. String
    takes in every scalar dtype, an integer takes in Boolean, the wider
    integer the narrower, lists go by their elements; a list and a scalar
    are not combined here. *)
Fixpoint supertype (a b : DType) : option DType :=
  match a, b with
  | ListOf x, ListOf y => option_map ListOf (supertype x y)
  | ListOf _, _ => None
  | _, ListOf _ => None
  | Utf8, _ => Some Utf8
  | _, Utf8 => Some Utf8
  | Boolean, other => Some other
  | other, Boolean => Some other
  | UInt8, UInt8 => Some UInt8
  | UInt8, UInt16 => Some UInt16
  | UInt16, UInt8 => Some UInt16
  | UInt16, UInt16 => Some UInt16
  | _, _ => Some Int64
  end.

(** A value, and a column, of dtype [from] brought to [dt]: as they are
    when [dt] is their dtype, cast otherwise. *)
Definition upcast_value (from dt : DType) (v : Value) : option Value :=
  if dtype_eqb from dt then Some v else cast_value dt v.

Definition upcast (dt : DType) (s : Series) : Res Series :=
  if dtype_eqb (dtype s) dt then Ok s else cast_series dt s.

(** [s.fill_null(v)]: both columns in their common dtype, the nulls of [s]
    replaced by the entries of [v]. *)
Definition fill_null_series (s v : Series) : Res Series :=
  match supertype (dtype s) (dtype v) with
  | None => Raise SchemaError
  | Some st =>
      s' <- upcast st s ;;
      v' <- upcast st v ;;
      Ok (mkSeries st (fill_null_values (values s') (values v')))
  end.

Fixpoint zip_with (f : Value -> Value -> Value) (xs ys : list Value) : list Value :=
  match xs, ys with
  | x :: xs', y :: ys' => f x y :: zip_with f xs' ys'
  | _, _ => []
  end.

(** Integer arithmetic wraps around in the range of its dtype. *)
Definition wrap (dt : DType) (z : Z) : Z :=
  match int_range dt with
  | Some (lo, hi) => (lo + (z - lo) mod (hi - lo + 1))%Z
  | None => z
  end.

Definition arith (dt : DType) (op : Z -> Z -> Z) (a b : Value) : Value :=
  match a, b with
  | VInt x, VInt y => VInt (wrap dt (op x y))
  | _, _ => VNull
  end.

Definition value_eq (a b : Value) : Value :=
  match a, b with
  | VInt x, VInt y => VBool (x =? y)%Z
  | VStr x, VStr y => VBool (String.eqb x y)
  | VBool x, VBool y => VBool (Bool.eqb x y)
  | _, _ => VNull
  end.

(** An element-wise operation on two columns brought to their common
    dtype [st]; [result st] is the dtype of the outcome. *)
Definition binary (f : DType -> Value -> Value -> Value) (result : DType -> DType)
    (a b : Series) : Res Series :=
  match supertype (dtype a) (dtype b) with
  | None => Raise SchemaError
  | Some st =>
      a' <- upcast st a ;;
      b' <- upcast st b ;;
      let n := Nat.max (List.length (values a')) (List.length (values b')) in
      if shape_ok n (values a') && shape_ok n (values b')
      then Ok (mkSeries (result st)
                 (zip_with (f st) (broadcast n (values a')) (broadcast n (values b'))))
      else Raise ShapeError
  end.

(** [a + b] and [a * b] on integers; a string and a number are not
    combined. *)
Definition arithmetic (op : Z -> Z -> Z) (a b : Series) : Res Series :=
  match supertype (dtype a) (dtype b) with
  | Some st =>
      match int_range st with
      | Some _ => binary (fun st => arith st op) (fun st => st) a b
      | None => Raise InvalidOperationError
      end
  | None => Raise SchemaError
  end.

Definition concat (a b : Value) : Value :=
  match a, b with
  | VStr x, VStr y => VStr (x ++ y)%string
  | _, _ => VNull
  end.

(** [a + b]: two columns of strings are joined row by row. *)
Definition add (a b : Series) : Res Series :=
  match dtype a, dtype b with
  | Utf8, Utf8 => binary (fun _ => concat) (fun st => st) a b
  | _, _ => arithmetic Z.add a b
  end.

Definition is_string (dt : DType) : bool :=
  match dt with Utf8 => true | _ => false end.

(** [a == b]: a column of strings is compared with strings only. *)
Definition equal (a b : Series) : Res Series :=
  if xorb (is_string (dtype a)) (is_string (dtype b))
  then Raise InvalidOperationError
  else binary (fun _ => value_eq) (fun _ => Boolean) a b.

(** [.list.get(index, null_on_oob=True)] on one value. *)
Definition list_get (index : Z) (v : Value) : Value :=
  match v with
  | VList items =>
      let n := Z.of_nat (List.length items) in
      let i := if (index <? 0)%Z then (n + index)%Z else index in
      if (0 <=? i)%Z && (i <? n)%Z then nth (Z.to_nat i) items VNull else VNull
  | _ => VNull
  end.

Definition inner_dtype (dt : DType) : DType :=
  match dt with ListOf inner => inner | other => other end.

(** *** Expressions *)

Inductive Expr : Type :=
| Col (name : string)
| Lit (v : Value) (dt : DType)
| SeriesLit (name : string) (s : Series)
| Cast (e : Expr) (dt : DType)
| Alias (e : Expr) (name : string)
| FillNull (e value : Expr)
| ListGet (e : Expr) (index : Z)
| Add (a b : Expr)
| Mul (a b : Expr)
| Eq (a b : Expr).

(** [expr.meta.root_names()] *)
Fixpoint root_names (e : Expr) : list string :=
  match e with
  | Col name => [name]
  | Lit _ _ => []
  | SeriesLit _ _ => []
  | Cast e _ => root_names e
  | Alias e _ => root_names e
  | FillNull e v => root_names e ++ root_names v
  | ListGet e _ => root_names e
  | Add a b => root_names a ++ root_names b
  | Mul a b => root_names a ++ root_names b
  | Eq a b => root_names a ++ root_names b
  end.

(** Evaluation in the context of a frame: the output name and the column. *)
Fixpoint eval (f : Frame) (e : Expr) : Res (string * Series) :=
  match e with
  | Col name =>
      match lookup name f with
      | Some s => Ok (name, s)
      | None => Raise (ColumnNotFoundError name)
      end
  | Lit v dt => s <- Series_new [v] dt ;; Ok ("literal", s)
  | SeriesLit name s => Ok (name, s)
  | Cast e dt => '(n, s) <- eval f e ;; s' <- cast_series dt s ;; Ok (n, s')
  | Alias e name => '(_, s) <- eval f e ;; Ok (name, s)
  | FillNull e v =>
      '(n, s) <- eval f e ;;
      '(_, sv) <- eval f v ;;
      if shape_ok (List.length (values s)) (values sv)
      then r <- fill_null_series s sv ;; Ok (n, r)
      else Raise ShapeError
  | ListGet e index =>
      '(n, s) <- eval f e ;;
      Ok (n, mkSeries (inner_dtype (dtype s)) (map (list_get index) (values s)))
  | Add a b =>
      '(n, sa) <- eval f a ;; '(_, sb) <- eval f b ;;
      s <- add sa sb ;; Ok (n, s)
  | Mul a b =>
      '(n, sa) <- eval f a ;; '(_, sb) <- eval f b ;;
      s <- arithmetic Z.mul sa sb ;; Ok (n, s)
  | Eq a b =>
      '(n, sa) <- eval f a ;; '(_, sb) <- eval f b ;;
      s <- equal sa sb ;; Ok (n, s)
  end.

(** *** Frame operations *)

Fixpoint first_duplicate (l : list string) : option string :=
  match l with
  | [] => None
  | x :: xs => if mem x xs then Some x else first_duplicate xs
  end.

Definition check_unique (cols : Frame) : Res Frame :=
  match first_duplicate (names cols) with
  | Some n => Raise (DuplicateError n)
  | None => Ok cols
  end.

(** A column of length one is repeated to the height [h], a literal and,
    in the older releases of polars, a [Series] alike; any other length
    must be [h]. *)
Definition fit (h : nat) (c : string * Series) : Res (string * Series) :=
  let s := snd c in
  if List.length (values s) =? h then Ok c
  else if List.length (values s) =? 1
       then Ok (fst c, mkSeries (dtype s) (broadcast h (values s)))
       else Raise ShapeError.

Definition max_length (cols : Frame) : nat :=
  fold_right (fun c acc => Nat.max (List.length (values (snd c))) acc) 0 cols.

Fixpoint upsert (c : string * Series) (f : Frame) : Frame :=
  match f with
  | [] => [c]
  | (n, s) :: rest =>
      if String.eqb (fst c) n then (n, snd c) :: rest else (n, s) :: upsert c rest
  end.

(** [frame.with_columns(exprs)]: every expression is evaluated on the input
    frame; an output replaces the column of its name in place, or is
    appended. *)
Definition with_columns (exprs : list Expr) (f : Frame) : Res Frame :=
  cols <- mapM (eval f) exprs ;;
  cols <- check_unique cols ;;
  let h := match f with [] => max_length cols | _ => height f end in
  cols <- mapM (fit h) cols ;;
  Ok (fold_left (fun acc c => upsert c acc) cols f).

(** Releases of polars differ on a [Series] of one element given to
    [with_columns] where the frame has another height: the older ones
    repeat it as they repeat a literal, the newer ones repeat literals only
    and raise [ShapeError]. [is_scalar e]: [e] is built from literals
    alone. *)
Fixpoint is_scalar (e : Expr) : bool :=
  match e with
  | Col _ => false
  | Lit _ _ => true
  | SeriesLit _ _ => false
  | Cast e _ => is_scalar e
  | Alias e _ => is_scalar e
  | FillNull e v => is_scalar e && is_scalar v
  | ListGet e _ => is_scalar e
  | Add a b => is_scalar a && is_scalar b
  | Mul a b => is_scalar a && is_scalar b
  | Eq a b => is_scalar a && is_scalar b
  end.

Definition fit_exact (h : nat) (ec : Expr * (string * Series)) : Res (string * Series) :=
  let (e, c) := ec in
  if is_scalar e || (List.length (values (snd c)) =? h) then fit h c else Raise ShapeError.

(** [frame.with_columns(exprs)] of the newer releases. *)
Definition with_columns_exact (exprs : list Expr) (f : Frame) : Res Frame :=
  cols <- mapM (eval f) exprs ;;
  cols <- check_unique cols ;;
  let h := match f with [] => max_length cols | _ => height f end in
  cols <- mapM (fit_exact h) (combine exprs cols) ;;
  Ok (fold_left (fun acc c => upsert c acc) cols f).

(** [frame.select(exprs)] *)
Definition select (exprs : list Expr) (f : Frame) : Res Frame :=
  cols <- mapM (eval f) exprs ;;
  cols <- check_unique cols ;;
  mapM (fit (max_length cols)) cols.

Definition is_true (v : Value) : bool :=
  match v with VBool true => true | _ => false end.

Fixpoint keep {A : Type} (mask : list bool) (l : list A) : list A :=
  match mask, l with
  | b :: mask', x :: l' => if b then x :: keep mask' l' else keep mask' l'
  | _, _ => []
  end.

(** [frame.filter(predicate)]: the rows where the predicate is true. *)
Definition filter (predicate : Expr) (f : Frame) : Res Frame :=
  '(_, s) <- eval f predicate ;;
  c <- fit (height f) ("", s) ;;
  let mask := map is_true (values (snd c)) in
  Ok (map (fun c => (fst c, mkSeries (dtype (snd c)) (keep mask (values (snd c))))) f).

End Polars.

Import Polars.

(** ** The schema accessor *)

(** [Field(derived_from=...)]: a column name, an expression, or (Python being
    untyped) a value of some other type. *)
Inductive DerivedFrom : Type :=
| DerivedStr (source : string)
| DerivedExpr (e : Expr)
| DerivedOther (type_name : string).

(** [validation_alias]: [str | AliasPath | AliasChoices]. The first element
    of an [AliasPath] is its own constructor argument. *)
Inductive ValidationAlias : Type :=
| AliasStr (name : string)
| AliasPath (first : string) (rest : list PathItem)
| AliasChoices (choices : list ValidationAlias).

(** Modelled from the spec: the Field Descriptor of the Schema Accessor
    ([patito.Model] and [ColumnInfo] are not in [polars.py]); one record per
    declared field, carrying what [polars.py] reads of it: [dtypes[name]],
    [valid_dtypes[name]], the ["dtype"] key of [_schema_properties()[name]],
    [defaults[name]], [column_infos[name].derived_from] and
    [model_fields[name].validation_alias]. *)
Record FieldInfo : Type := mkField {
  field_name : string;
  field_dtype : DType;
  field_valid_dtypes : list DType;
  field_props_dtype : option DType;
  field_default : option Value;
  field_derived_from : option DerivedFrom;
  field_validation_alias : option ValidationAlias
}.

(** Modelled from the spec: a schema is its title and its fields in
    declaration order (the key order of [_schema_properties()] and of
    [model_fields]); field names are distinct, being dictionary keys. *)
Record Model : Type := mkModel {
  model_title : string;
  model_fields : list FieldInfo
}.

Definition columns_of (m : Model) : list string := map field_name (model_fields m).

Definition column_info (m : Model) (name : string) : option FieldInfo :=
  find (fun fi => String.eqb name (field_name fi)) (model_fields m).

(** Modelled from the spec: [Model.derived_columns], every column whose
    field has a [derived_from]. *)
Definition derived_columns (m : Model) : list string :=
  map field_name
    (List.filter (fun fi => match field_derived_from fi with Some _ => true | None => false end)
       (model_fields m)).

(** Modelled from the spec: [Model.defaults], the declared default values by
    field name, in declaration order. *)
Definition defaults (m : Model) : list (string * (Value * DType)) :=
  flat_map (fun fi => match field_default fi with
                      | Some v => [(field_name fi, (v, field_dtype fi))]
                      | None => []
                      end) (model_fields m).

(** ** Iteration order of a Python [set]

    [derive] builds [set]s of column names and iterates over them. The order
    in which a [set] of strings yields its elements is fixed by the hashes of
    the strings and the insertions that built it, and promises nothing but
    that each element comes once. [set_iter l] is that order for the set
    built from the sequence [l]. *)
Record SetOrder : Type := mkSetOrder {
  set_iter : list string -> list string;
  set_iter_NoDup : forall l, NoDup (set_iter l);
  set_iter_In : forall l x, In x (set_iter l) <-> In x l
}.

(** ** LazyFrame *)

Inductive Op : Type :=
| WithColumns (exprs : list Expr)
| Select (exprs : list Expr).

(** A lazy frame is a source and the operations queued on it; nothing runs,
    and so nothing of the engine fails, before the schema or the data is
    asked for. [lf_model] is the class attribute [model], absent on the
    plain [LazyFrame] class. *)
Record LazyFrame : Type := mkLazy {
  lf_source : Frame;
  lf_plan : list Op;
  lf_model : option Model
}.

Definition run_op (op : Op) (f : Frame) : Res Frame :=
  match op with
  | WithColumns exprs => Polars.with_columns exprs f
  | Select exprs => Polars.select exprs f
  end.

Definition run_plan (plan : list Op) (f : Frame) : Res Frame :=
  fold_left (fun acc op => f <- acc ;; run_op op f) plan (Ok f).

Definition lf_with_columns (exprs : list Expr) (lf : LazyFrame) : LazyFrame :=
  mkLazy (lf_source lf) (lf_plan lf ++ [WithColumns exprs]) (lf_model lf).

Definition lf_select (exprs : list Expr) (lf : LazyFrame) : LazyFrame :=
  mkLazy (lf_source lf) (lf_plan lf ++ [Select exprs]) (lf_model lf).

(** [collect_schema()]: names and dtypes of the frame the plan produces. *)
Definition collect_schema (lf : LazyFrame) : Res (list (string * DType)) :=
  f <- run_plan (lf_plan lf) (lf_source lf) ;;
  Ok (map (fun c => (fst c, dtype (snd c))) f).

Definition schema_names (lf : LazyFrame) : Res (list string) :=
  sch <- collect_schema lf ;; Ok (map fst sch).

Definition get_model (lf : LazyFrame) : Res Model :=
  match lf_model lf with
  | Some m => Ok m
  | None => Raise (AttributeError "model")
  end.

(** *** derive *)

(** The [while root_cols: root_col = root_cols.pop()] loop of
    [_derive_column], over the roots in popping order, [rec] being the
    recursive call. *)
Fixpoint derive_roots (rec : LazyFrame -> string -> Res (LazyFrame * list string))
    (root_cols : list string) (df : LazyFrame) (derived_columns : list string)
    : Res (LazyFrame * list string) :=
  match root_cols with
  | [] => Ok (df, derived_columns)
  | root_col :: rest =>
      '(df', _derived_columns) <- rec df root_col ;;
      derive_roots rec rest df' (derived_columns ++ _derived_columns)
  end.

(** [LazyFrame._derive_column], with [fuel] bounding the depth of the
    recursion. *)
Fixpoint _derive_column (fuel : nat) (m : Model) (df : LazyFrame) (column_name : string)
    : Res (LazyFrame * list string) :=
  match fuel with
  | O => OutOfFuel
  | S fuel' =>
      match column_info m column_name with
      | None => Ok (df, [])
      | Some info =>
          match field_derived_from info with
          | None => Ok (df, [])
          | Some derived_from =>
              let dtype := field_dtype info in
              match derived_from with
              | DerivedStr source =>
                  Ok (lf_with_columns [Alias (Cast (Col source) dtype) column_name] df,
                      [column_name])
              | DerivedExpr e =>
                  '(df', derived) <-
                    derive_roots (_derive_column fuel' m) (List.rev (root_names e)) df [] ;;
                  Ok (lf_with_columns [Alias (Cast e dtype) column_name] df',
                      derived ++ [column_name])
              | DerivedOther type_name =>
                  Raise (TypeError ("Can not derive dataframe column from type "
                                      ++ type_name ++ ".")%string)
              end
          end
      end
  end.

(** The [for column_name in to_derive] loop of [derive]. *)
Fixpoint derive_loop (fuel : nat) (m : Model) (to_derive : list string)
    (self : LazyFrame) (derived_columns : list string) : Res (LazyFrame * list string) :=
  match to_derive with
  | [] => Ok (self, derived_columns)
  | column_name :: rest =>
      if mem column_name derived_columns
      then derive_loop fuel m rest self derived_columns
      else
        '(self', _derived_columns) <- _derive_column fuel m self column_name ;;
        derive_loop fuel m rest self' (derived_columns ++ _derived_columns)
  end.

(** The names [derive] iterates over: the set [model.derived_columns] when
    no list is given. *)
Definition to_derive_of (so : SetOrder) (m : Model) (columns : option (list string))
    : list string :=
  match columns with
  | None => set_iter so (derived_columns m)
  | Some cols => cols
  end.

(** The two list comprehensions that compute [out_cols]. *)
Definition out_cols_of (so : SetOrder) (props original_columns to_derive : list string)
    : list string :=
  let union := original_columns ++ to_derive in
  let out_cols := List.filter (fun x => mem x union) props in
  out_cols ++ List.filter (fun x => negb (mem x out_cols)) (set_iter so union).

(** [LazyFrame.derive] *)
Definition derive (so : SetOrder) (fuel : nat) (self : LazyFrame)
    (columns : option (list string)) : Res LazyFrame :=
  m <- get_model self ;;
  let props := columns_of m in
  original_columns <- schema_names self ;;
  let to_derive := to_derive_of so m columns in
  '(self', _) <- derive_loop fuel m to_derive self [] ;;
  Ok (lf_select (map Col (out_cols_of so props original_columns to_derive)) self').

(** *** unalias *)

(** Truth value of [fi.validation_alias] in the guard of [unalias]: [None]
    and the empty string are false, every alias object is true. *)
Definition alias_truthy (va : option ValidationAlias) : bool :=
  match va with
  | None => false
  | Some (AliasStr name) => negb (String.eqb name "")
  | Some _ => true
  end.

(** The [for choice in va.choices] loop of [to_expr], [rec] being the
    recursive call. *)
Fixpoint choices_loop (rec : ValidationAlias -> Res (option Expr))
    (choices : list ValidationAlias) (local_expr : option Expr) : Res (option Expr) :=
  match choices with
  | [] => Ok local_expr
  | choice :: rest =>
      part <- rec choice ;;
      match part with
      | Some p =>
          choices_loop rec rest
            (Some (match local_expr with
                   | Some l => FillNull l p
                   | None => p
                   end))
      | None => choices_loop rec rest local_expr
      end
  end.

(** The local function [to_expr] of [unalias]; [sch] is
    [self.collect_schema()], asked for where the source asks for it. *)
Fixpoint to_expr (sch : Res (list string)) (va : ValidationAlias) : Res (option Expr) :=
  match va with
  | AliasStr name =>
      names <- sch ;; Ok (if mem name names then Some (Col name) else None)
  | AliasPath first rest =>
      match rest with
      | [PathInt index] =>
          names <- sch ;;
          Ok (if mem first names then Some (ListGet (Col first) index) else None)
      | _ =>
          Raise (NotImplementedError "TODO figure out how this AliasPath behaves"
                   first rest)
      end
  | AliasChoices choices => choices_loop (to_expr sch) choices None
  end.

(** One round of the [for name, field_info in model_fields.items()] loop:
    the expressions it appends. *)
Definition unalias_field (sch : Res (list string)) (fi : FieldInfo) : Res (list Expr) :=
  let name := field_name fi in
  match field_validation_alias fi with
  | None => Ok [Col name]
  | Some va =>
      expr <- to_expr sch va ;;
      names <- sch ;;
      if mem name names
      then Ok [match expr with
               | None => Col name
               | Some e => FillNull (Col name) e
               end]
      else Ok (match expr with
               | Some e => [Alias e name]
               | None => []
               end)
  end.

Fixpoint unalias_exprs (sch : Res (list string)) (fields : list FieldInfo) : Res (list Expr) :=
  match fields with
  | [] => Ok []
  | fi :: rest =>
      this <- unalias_field sch fi ;;
      more <- unalias_exprs sch rest ;;
      Ok (this ++ more)
  end.

(** [LazyFrame.unalias] *)
Definition unalias (self : LazyFrame) : Res LazyFrame :=
  m <- get_model self ;;
  if negb (existsb (fun fi => alias_truthy (field_validation_alias fi)) (model_fields m))
  then Ok self
  else
    exprs <- unalias_exprs (schema_names self) (model_fields m) ;;
    Ok (lf_select exprs self).

(** *** cast *)

(** [columns or self.collect_schema().names()]: an absent and an empty list
    both stand for every column. *)
Definition target_columns (columns : option (list string)) (names : list string)
    : list string :=
  match columns with
  | None => names
  | Some [] => names
  | Some cols => cols
  end.

(** The body of the loop of [cast] for one column of the frame. *)
Definition cast_expr (m : Model) (strict : bool) (columns : list string)
    (c : string * DType) : Expr :=
  let (column, current_dtype) := c in
  if negb (mem column columns) || negb (mem column (columns_of m))
  then Col column
  else
    match column_info m column with
    | None => Col column
    | Some fi =>
        match field_props_dtype fi with
        | Some dt => Cast (Col column) dt
        | None =>
            if negb strict && dtype_in current_dtype (field_valid_dtypes fi)
            then Col column
            else Cast (Col column) (field_dtype fi)
        end
    end.

(** [LazyFrame.cast] *)
Definition cast (strict : bool) (columns : option (list string)) (self : LazyFrame)
    : Res LazyFrame :=
  m <- get_model self ;;
  sch <- collect_schema self ;;
  let columns := target_columns columns (map fst sch) in
  Ok (lf_with_columns (map (cast_expr m strict columns) sch) self).

(** ** DataFrame *)

Record DataFrame : Type := mkDataFrame {
  df_frame : Frame;
  df_model : option Model
}.

Definition lazy (self : DataFrame) : LazyFrame :=
  mkLazy (df_frame self) [] (df_model self).

Definition collect (lf : LazyFrame) : Res DataFrame :=
  f <- run_plan (lf_plan lf) (lf_source lf) ;;
  Ok (mkDataFrame f (lf_model lf)).

Definition set_model (m : Model) (self : DataFrame) : DataFrame :=
  mkDataFrame (df_frame self) (Some m).

Definition DataFrame_unalias (self : DataFrame) : Res DataFrame :=
  lf <- unalias (lazy self) ;; collect lf.

Definition DataFrame_cast (strict : bool) (columns : option (list string))
    (self : DataFrame) : Res DataFrame :=
  lf <- cast strict columns (lazy self) ;; collect lf.

Definition DataFrame_derive (so : SetOrder) (fuel : nat) (self : DataFrame)
    (columns : option (list string)) : Res DataFrame :=
  lf <- derive so fuel (lazy self) columns ;; collect lf.

(** *** fill_null *)

Inductive Strategy : Type :=
| Forward | Backward | Min | Max | Mean | Zero | One | Defaults.

(** The expression [fill_null] builds for one entry of [model.defaults]. *)
Definition default_expr (columns : list string) (d : string * (Value * DType))
    : Res Expr :=
  let '(column, (default_value, dt)) := d in
  if mem column columns
  then Ok (FillNull (Col column) (Lit default_value dt))
  else s <- Series_new [default_value] dt ;; Ok (SeriesLit column s).

(** [DataFrame.fill_null] on an engine whose [with_columns] is
    [with_columns]; [super_fill_null] is the engine's own [fill_null], to
    which every strategy but ["defaults"] goes together with [value],
    [limit] and [matches_supertype], which nothing else reads. *)
Definition fill_null_on (with_columns : list Expr -> Frame -> Res Frame)
    (super_fill_null : option Strategy -> Frame -> Res Frame)
    (strategy : option Strategy) (self : DataFrame) : Res DataFrame :=
  match strategy with
  | Some Defaults =>
      m <- (match df_model self with
            | Some m => Ok m
            | None => Raise (AttributeError "model")
            end) ;;
      exprs <- mapM (default_expr (names (df_frame self))) (defaults m) ;;
      f <- with_columns exprs (df_frame self) ;;
      Ok (set_model m (mkDataFrame f (df_model self)))
  | other =>
      f <- super_fill_null other (df_frame self) ;;
      Ok (mkDataFrame f (df_model self))
  end.

(** [DataFrame.fill_null] on an engine that repeats a one-element
    [Series], as every other operation is taken here. *)
Definition fill_null : (option Strategy -> Frame -> Res Frame) -> option Strategy
                       -> DataFrame -> Res DataFrame :=
  fill_null_on Polars.with_columns.

(** *** get *)

(** The record class [get] builds the row with: the bound model, or the
    class ["UntypedRow"] that [_pydantic_model] creates with one [Any] field
    per column. *)
Inductive RowModel : Type :=
| BoundModel (m : Model)
| UntypedRow (columns : list string).

Definition _pydantic_model (self : DataFrame) : RowModel :=
  UntypedRow (names (df_frame self)).

(** [self.__class__.__name__]: [set_model] creates the class
    [<title>DataFrame]. *)
Definition class_name (self : DataFrame) : string :=
  match df_model self with
  | Some m => (model_title m ++ "DataFrame")%string
  | None => "DataFrame"
  end.

Section Get.

(** [Model.from_row] lives in [patito.pydantic]; [get] only hands it the
    row. *)
Variable Record_ : Type.
Variable from_row : RowModel -> Frame -> Record_.

Definition get_row (predicate : option Expr) (self : DataFrame) : Res Frame :=
  match predicate with
  | None => Ok (df_frame self)
  | Some p => Polars.filter p (df_frame self)
  end.

(** [DataFrame.get] *)
Definition get (predicate : option Expr) (self : DataFrame) : Res Record_ :=
  row <- get_row predicate self ;;
  if height row =? 0
  then Raise (RowDoesNotExist (class_name self ++ ".get() yielded 0 rows.")%string)
  else if 1 <? height row
  then Raise (MultipleRowsReturned
                (class_name self ++ ".get() yielded " ++ show_nat (height row)
                   ++ " rows.")%string)
  else
    match df_model self with
    | Some m => Ok (from_row (BoundModel m) row)
    | None => Ok (from_row (_pydantic_model self) row)
    end.

End Get.

(** ** Reading the claims on the code *)

(** The coercion policy in the words of the specification: an explicit
    dtype override wins, then a dtype that is acceptable as it stands is
    kept unless [strict], and the default dtype applies otherwise. *)
Inductive Coercion : Type :=
| Unchanged
| CastTo (dt : DType).

Definition policy (fi : FieldInfo) (strict : bool) (current_dtype : DType) : Coercion :=
  match field_props_dtype fi with
  | Some dt => CastTo dt
  | None =>
      if negb strict && dtype_in current_dtype (field_valid_dtypes fi)
      then Unchanged
      else CastTo (field_dtype fi)
  end.

(** The coercion of a column of the frame: the policy of its field when
    the column is targeted and is a field of the schema, none otherwise. *)
Definition decision (m : Model) (strict : bool) (targets : list string)
    (column : string) (current_dtype : DType) : Coercion :=
  match column_info m column with
  | Some fi => if mem column targets then policy fi strict current_dtype else Unchanged
  | None => Unchanged
  end.

(** The target subset in the words of the specification: the columns of
    the list the caller gives, every column when none is given. *)
Definition targeted (columns : option (list string)) (column : string) : bool :=
  match columns with
  | None => true
  | Some given => mem column given
  end.

(** The coercion the specification gives a column: the policy of its field
    when the column is in the target subset and is a field of the schema,
    none otherwise. *)
Definition claimed_coercion (m : Model) (strict : bool) (columns : option (list string))
    (column : string) (current_dtype : DType) : Coercion :=
  match column_info m column with
  | Some fi => if targeted columns column then policy fi strict current_dtype else Unchanged
  | None => Unchanged
  end.

(** [coerced c s s']: the column [s'] is [s] after the coercion [c]. *)
Definition coerced (c : Coercion) (s s' : Series) : Prop :=
  match c with
  | Unchanged => s' = s
  | CastTo dt => cast_series dt s = Ok s'
  end.

Definition coerce (column : string) (c : Coercion) : Expr :=
  match c with
  | Unchanged => Col column
  | CastTo dt => Cast (Col column) dt
  end.

(** The column order in the words of the specification: the schema fields
    present among the input and the requested columns, in declaration
    order, then the input columns outside the schema in their input
    order. *)
Definition claimed_order (m : Model) (original_columns to_derive : list string)
    : list string :=
  List.filter (fun x => mem x (original_columns ++ to_derive)) (columns_of m)
    ++ List.filter (fun x => negb (mem x (columns_of m))) original_columns.

Definition all_length (h : nat) (f : Frame) : Prop :=
  Forall (fun c => List.length (values (snd c)) = h) f.

(** A frame as the engine keeps it: columns of one length. *)
Definition rectangular (f : Frame) : Prop := all_length (height f) f.

(** The expressions [to_expr] and [unalias] build: columns, list elements,
    null fills and renamings of them. *)
Inductive column_expr : Expr -> Prop :=
| ce_col (name : string) : column_expr (Col name)
| ce_get (e : Expr) (index : Z) : column_expr e -> column_expr (ListGet e index)
| ce_fill (e v : Expr) : column_expr e -> column_expr v -> column_expr (FillNull e v)
| ce_alias (e : Expr) (name : string) : column_expr e -> column_expr (Alias e name).

(** The candidates of a choice that resolve to an expression, in order. *)
Fixpoint resolved (rec : ValidationAlias -> Res (option Expr))
    (choices : list ValidationAlias) : Res (list Expr) :=
  match choices with
  | [] => Ok []
  | choice :: rest =>
      part <- rec choice ;;
      more <- resolved rec rest ;;
      Ok (match part with
          | Some p => p :: more
          | None => more
          end)
  end.

(** [evaluates f p s]: the expression [p] gives the column [s] on [f]. *)
Definition evaluates (f : Frame) (p : Expr) (s : Series) : Prop :=
  exists name, eval f p = Ok (name, s).

(** [filled_row from x fill_from fill st y]: [y] is what [fill_null] leaves
    in a row that held [x], of dtype [from], and is offered [fill], of dtype
    [fill_from], the common dtype being [st]: [x] itself when [x] is not
    null, and [fill] when it is, either one in the common dtype. *)
Definition filled_row (from : DType) (x : Value) (fill_from : DType) (fill : Value)
    (st : DType) (y : Value) : Prop :=
  (x <> VNull -> upcast_value from st x = Some y)
  /\ (x = VNull -> upcast_value fill_from st fill = Some y).

Definition all_null (dt : DType) (n : nat) : Series := mkSeries dt (repeat VNull n).

(** The candidates filled into an accumulator from left to right. *)
Fixpoint fill_all (acc : Series) (cols : list Series) : Res Series :=
  match cols with
  | [] => Ok acc
  | s :: rest => a <- fill_null_series acc s ;; fill_all a rest
  end.

(** A value of dtype [from] taken through the common dtypes with the
    columns of dtypes [dts], one after the other. *)
Fixpoint recast (from : DType) (dts : list DType) (v : Value) : option Value :=
  match dts with
  | [] => Some v
  | d :: rest =>
      match supertype from d with
      | Some st =>
          match upcast_value from st v with
          | Some v' => recast st rest v'
          | None => None
          end
      | None => None
      end
  end.

(** The operations [_derive_column] queues: one definition of a schema
    column at a time. *)
Definition derive_op (m : Model) (op : Op) : Prop :=
  exists e name, op = WithColumns [Alias e name] /\ In name (columns_of m).

(** [extends m df df']: [df'] is [df] with definitions of schema columns
    queued after its plan. *)
Definition extends (m : Model) (df df' : LazyFrame) : Prop :=
  lf_source df' = lf_source df
  /\ lf_model df' = lf_model df
  /\ exists ops, lf_plan df' = lf_plan df ++ ops /\ Forall (derive_op m) ops.

(** Two iteration orders a set can have: the order of first insertion, and
    its reverse. *)
Definition first_seen (l : list string) : list string :=
  List.rev (nodup string_dec (List.rev l)).

Definition insertion_order : SetOrder.
Proof.
  refine (mkSetOrder first_seen _ _); unfold first_seen; intros.
  - apply NoDup_rev, NoDup_nodup.
  - rewrite <- in_rev, nodup_In, <- in_rev. reflexivity.
Defined.

Definition reverse_order : SetOrder.
Proof.
  refine (mkSetOrder (fun l => nodup string_dec (List.rev l)) _ _); intros.
  - apply NoDup_nodup.
  - rewrite nodup_In, <- in_rev. reflexivity.
Defined.

(** *** Example schemas and frames *)

Definition int_series (l : list Z) : Series := mkSeries Int64 (map VInt l).

Definition plain_field (name : string) (dt : DType) : FieldInfo :=
  mkField name dt [dt] None None None None.

Definition derived_field (name : string) (dt : DType) (d : DerivedFrom) : FieldInfo :=
  mkField name dt [dt] None None (Some d) None.

Definition alias_field (name : string) (dt : DType) (va : ValidationAlias) : FieldInfo :=
  mkField name dt [dt] None None None (Some va).

(** The schema of the docstring of [derive]. *)
Definition Foo : Model :=
  mkModel "Foo"
    [ derived_field "bar" Int64 (DerivedStr "foo");
      derived_field "double_bar" Int64
        (DerivedExpr (Mul (Lit (VInt 2) Int64) (Col "bar"))) ].

(** One schema field and two columns outside the schema. *)
Definition Single : Model := mkModel "Single" [ plain_field "a" Int64 ].

Definition single_df : DataFrame :=
  mkDataFrame [ ("a", int_series [1]); ("x", int_series [2]); ("y", int_series [3]) ]%Z
    (Some Single).

(** What [derive] returns for [single_df] when the sets yield their
    elements in reverse order. *)
Definition single_out : DataFrame :=
  mkDataFrame [ ("a", int_series [1]); ("y", int_series [3]); ("x", int_series [2]) ]%Z
    (Some Single).

(** A field derived from an expression over itself. *)
Definition Cyclic : Model :=
  mkModel "Cyclic"
    [ derived_field "a" Int64 (DerivedExpr (Add (Col "a") (Lit (VInt 1) Int64))) ].

Definition cyclic_df : DataFrame := mkDataFrame [ ("a", int_series [1]%Z) ] (Some Cyclic).

(** [b] is computed from [a], [c] from [b]. *)
Definition Chain : Model :=
  mkModel "Chain"
    [ plain_field "a" Int64;
      derived_field "b" Int64 (DerivedExpr (Mul (Col "a") (Lit (VInt 2) Int64)));
      derived_field "c" Int64 (DerivedExpr (Add (Col "b") (Lit (VInt 1) Int64))) ].

Definition chain_df : DataFrame := mkDataFrame [ ("a", int_series [1]%Z) ] (Some Chain).

(** [a] is computed from [x], and [b] is a copy of [a]. *)
Definition Stale : Model :=
  mkModel "Stale"
    [ plain_field "x" Int64;
      derived_field "a" Int64 (DerivedExpr (Mul (Col "x") (Lit (VInt 2) Int64)));
      derived_field "b" Int64 (DerivedStr "a") ].

Definition stale_df : DataFrame :=
  mkDataFrame [ ("x", int_series [1]); ("a", int_series [100]) ]%Z (Some Stale).

(** An aliased field next to a field without alias. *)
Definition Aliased : Model :=
  mkModel "Aliased" [ alias_field "a" Int64 (AliasStr "A"); plain_field "b" Int64 ].

Definition aliased_df : DataFrame := mkDataFrame [ ("A", int_series [1]%Z) ] (Some Aliased).

(** The candidates [A = [null, 2]] and [B = [10, 20]]. *)
Definition Choice : Model :=
  mkModel "Choice" [ alias_field "v" Int64 (AliasChoices [AliasStr "A"; AliasStr "B"]) ].

Definition choice_frame : Frame :=
  [ ("A", mkSeries Int64 [VNull; VInt 2]); ("B", int_series [10; 20]) ]%Z.

Definition choice_df : DataFrame := mkDataFrame choice_frame (Some Choice).

(** A canonical column with a null next to its alias source. *)
Definition Preferred : Model :=
  mkModel "Preferred" [ alias_field "v" Int64 (AliasStr "V") ].

Definition preferred_out : DataFrame :=
  mkDataFrame [ ("v", mkSeries Int64 [VInt 1; VInt 8]) ]%Z (Some Preferred).

Definition preferred_df : DataFrame :=
  mkDataFrame [ ("v", mkSeries Int64 [VInt 1; VNull]); ("V", int_series [7; 8]) ]%Z
    (Some Preferred).

(** A canonical column of integers next to an alias source of strings. *)
Definition mixed_df : DataFrame :=
  mkDataFrame [ ("v", mkSeries Int64 [VInt 1; VNull]);
                ("V", mkSeries Utf8 [VStr "7"; VStr "8"]) ]%Z (Some Preferred).

Definition mixed_out : DataFrame :=
  mkDataFrame [ ("v", mkSeries Utf8 [VStr "1"; VStr "8"]) ] (Some Preferred).

(** A field whose alias is the empty string, and a column of that name. *)
Definition EmptyAlias : Model := mkModel "EmptyAlias" [ alias_field "v" Int64 (AliasStr "") ].

Definition empty_alias_df : DataFrame :=
  mkDataFrame [ ("v", mkSeries Int64 [VNull]); ("", int_series [5]) ]%Z (Some EmptyAlias).

(** The schemas of the docstrings of [cast] and [fill_null]. *)
Definition Product : Model :=
  mkModel "Product"
    [ plain_field "name" Utf8;
      mkField "cent_price" UInt16 [Int64; UInt8; UInt16] (Some UInt16) None None None ].

Definition product_df : DataFrame :=
  mkDataFrame [ ("name", mkSeries Utf8 [VStr "apple"]);
                ("cent_price", mkSeries Utf8 [VStr "8"]) ] (Some Product).

Definition price_field : FieldInfo :=
  mkField "price" Int64 [Int64; UInt8; UInt16] None (Some (VInt 19)) None None.

Definition Priced : Model := mkModel "Product" [ plain_field "name" Utf8; price_field ].

Definition priced_df : DataFrame :=
  mkDataFrame [ ("name", mkSeries Utf8 [VStr "apple"; VStr "banana"]);
                ("price", mkSeries Int64 [VInt 10; VNull]) ] (Some Priced).

(** A price column narrower than the field's dtype. *)
Definition narrow_df : DataFrame :=
  mkDataFrame [ ("name", mkSeries Utf8 [VStr "apple"; VStr "banana"]);
                ("price", mkSeries UInt8 [VInt 10; VNull]) ] (Some Priced).

Definition narrow_out : DataFrame :=
  mkDataFrame [ ("name", mkSeries Utf8 [VStr "apple"; VStr "banana"]);
                ("price", mkSeries Int64 [VInt 10; VInt 19]) ] (Some Priced).

(** A price column of strings. *)
Definition text_df : DataFrame :=
  mkDataFrame [ ("name", mkSeries Utf8 [VStr "apple"; VStr "banana"]);
                ("price", mkSeries Utf8 [VStr "10"; VNull]) ] (Some Priced).

Definition text_out : DataFrame :=
  mkDataFrame [ ("name", mkSeries Utf8 [VStr "apple"; VStr "banana"]);
                ("price", mkSeries Utf8 [VStr "10"; VStr "19"]) ] (Some Priced).

Definition unpriced_df : DataFrame :=
  mkDataFrame [ ("name", mkSeries Utf8 [VStr "apple"; VStr "banana"]) ] (Some Priced).

Definition filled_df : DataFrame :=
  mkDataFrame [ ("name", mkSeries Utf8 [VStr "apple"; VStr "banana"]);
                ("price", mkSeries Int64 [VInt 19; VInt 19]) ] (Some Priced).

Definition products_df : DataFrame :=
  mkDataFrame [ ("product_id", int_series [1; 2; 3]); ("price", int_series [10; 10; 20]) ]%Z
    None.

(** ** The rest of [DataFrame] and what its properties are stated with *)

(** [polars.DataFrame.drop(columns)]: every named column has to be there. *)
Definition frame_drop (columns : list string) (f : Frame) : Res Frame :=
  match find (fun c => negb (mem c (names f))) columns with
  | Some c => Raise (ColumnNotFoundError c)
  | None => Ok (List.filter (fun c => negb (mem (fst c) columns)) f)
  end.

(** [DataFrame.drop]. A single name counts as a list of one, and
    [more_columns] is accepted but not handed to the engine. Without
    [columns] the names to drop are
    [list(set(self.columns) - set(self.model.columns))]: the difference is
    built from the set of the frame's columns and listed in its own set
    order. *)
Definition DataFrame_drop (so : SetOrder) (columns : option (list string))
    (more_columns : list string) (self : DataFrame) : Res DataFrame :=
  match columns with
  | Some cols =>
      f <- frame_drop cols (df_frame self) ;;
      Ok (mkDataFrame f (df_model self))
  | None =>
      m <- (match df_model self with
            | Some m => Ok m
            | None => Raise (AttributeError "model")
            end) ;;
      let difference :=
        List.filter (fun x => negb (mem x (columns_of m)))
          (set_iter so (names (df_frame self))) in
      f <- frame_drop (set_iter so difference) (df_frame self) ;;
      Ok (mkDataFrame f (df_model self))
  end.

(** A field [unalias] has a column for: one without alias, one whose
    canonical column is in the table, or one whose alias resolves. *)
Definition has_source (names : list string) (fi : FieldInfo) : bool :=
  match field_validation_alias fi with
  | None => true
  | Some va =>
      mem (field_name fi) names
      || match to_expr (Ok names) va with
         | Ok (Some _) => true
         | _ => false
         end
  end.

(** The operations [_derive_column] queues define columns that have a
    [derived_from]. *)
Definition derivation (m : Model) (op : Op) : Prop :=
  exists e name, op = WithColumns [Alias e name] /\ In name (derived_columns m).

(** [queued P df df']: [df'] is [df] with operations that satisfy [P]
    queued after its plan. *)
Definition queued (P : Op -> Prop) (df df' : LazyFrame) : Prop :=
  lf_source df' = lf_source df
  /\ lf_model df' = lf_model df
  /\ exists ops, lf_plan df' = lf_plan df ++ ops /\ Forall P ops.

(** [rank] orders the schema's derivations: every root of a derivation
    expression ranks below the column derived from it. *)
Definition acyclic (m : Model) (rank : string -> nat) : Prop :=
  forall fi e r,
    In fi (model_fields m) ->
    field_derived_from fi = Some (DerivedExpr e) ->
    In r (root_names e) ->
    rank r < rank (field_name fi).

(** What [derive(columns=["b", "a"])] returns for [stale_df]. *)
Definition stale_once : DataFrame :=
  mkDataFrame [ ("x", int_series [1]); ("a", int_series [2]); ("b", int_series [100]) ]%Z
    (Some Stale).

(** What [derive()] returns for the frame of the docstring. *)
Definition foo_df : DataFrame := mkDataFrame [ ("foo", int_series [1; 2]%Z) ] (Some Foo).

Definition foo_out : DataFrame :=
  mkDataFrame [ ("bar", int_series [1; 2]); ("double_bar", int_series [2; 4]);
                ("foo", int_series [1; 2]) ]%Z (Some Foo).

Definition foo_bar : DataFrame :=
  mkDataFrame [ ("bar", int_series [1; 2]); ("foo", int_series [1; 2]) ]%Z (Some Foo).

(** [unsupported va]: [va] is, or has among its choices, an [AliasPath]
    that is not a column name followed by one integer. *)
Fixpoint unsupported (va : ValidationAlias) : bool :=
  match va with
  | AliasStr _ => false
  | AliasPath _ rest =>
      match rest with
      | [PathInt _] => false
      | _ => true
      end
  | AliasChoices choices => existsb unsupported choices
  end.

(** The error [to_expr] raises for a path it does not take. *)
Definition path_not_taken (e : Error) : Prop :=
  exists (first : string) (rest : list PathItem),
    (forall index, rest <> [PathInt index])
    /\ e = NotImplementedError "TODO figure out how this AliasPath behaves" first rest.

Definition unsupported_field (fi : FieldInfo) : bool :=
  match field_validation_alias fi with
  | Some va => unsupported va
  | None => false
  end.

(** A path of three elements, which [to_expr] does not take. *)
Definition Deep : Model :=
  mkModel "Deep"
    [ plain_field "id" Int64;
      alias_field "v" Int64 (AliasChoices [AliasStr "V"; AliasPath "d" [PathInt 0; PathInt 1]]) ].

Definition deep_df : DataFrame := mkDataFrame [ ("id", int_series [1]%Z) ] (Some Deep).

(** An aliased field whose source is there, a field without alias, an
    aliased field without any source, and a column outside the schema. *)
Definition Partial : Model :=
  mkModel "Partial"
    [ alias_field "a" Int64 (AliasStr "A");
      plain_field "b" Int64;
      alias_field "c" Int64 (AliasStr "C") ].

Definition partial_df : DataFrame :=
  mkDataFrame [ ("extra", int_series [0]); ("b", int_series [2]); ("A", int_series [1]) ]%Z
    (Some Partial).

Definition partial_out : DataFrame :=
  mkDataFrame [ ("a", int_series [1]); ("b", int_series [2]) ]%Z (Some Partial).

(** A frame that conforms to [Product] but for the width of its integers. *)
Definition Plain : Model :=
  mkModel "Plain"
    [ plain_field "name" Utf8;
      mkField "count" Int64 [Int64; UInt8; UInt16] None None None None ].

Definition plain_df : DataFrame :=
  mkDataFrame [ ("name", mkSeries Utf8 [VStr "apple"]);
                ("count", mkSeries UInt8 [VInt 8]);
                ("note", mkSeries Utf8 [VStr "x"]) ] (Some Plain).

(** [names ++ the new ones]: the names of a frame after columns named
    [added] were put into it. *)
Definition names_after (names added : list string) : list string :=
  names ++ List.filter (fun x => negb (mem x names)) added.

(** The schema has no [derived_from] of a type [derive] rejects. *)
Definition well_typed (m : Model) : Prop :=
  forall fi type_name,
    In fi (model_fields m) -> field_derived_from fi <> Some (DerivedOther type_name).

(** The dtype a column that is a field may have after [cast]. *)
Definition cast_dtype_ok (fi : FieldInfo) (strict : bool) (dt : DType) : Prop :=
  match field_props_dtype fi with
  | Some override => dt = override
  | None =>
      dt = field_dtype fi
      \/ (strict = false /\ dtype_in dt (field_valid_dtypes fi) = true)
  end.

(** What [cast(strict=True)] returns for the frame of [plain_df]. *)
Definition plain_strict : DataFrame :=
  mkDataFrame [ ("name", mkSeries Utf8 [VStr "apple"]);
                ("count", mkSeries Int64 [VInt 8]);
                ("note", mkSeries Utf8 [VStr "x"]) ] (Some Plain).

(** What [unalias] returns for [aliased_df] once it has a column [b]. *)
Definition renamed_df : DataFrame :=
  mkDataFrame [ ("A", int_series [1]); ("b", int_series [2]) ]%Z (Some Aliased).

Definition renamed_out : DataFrame :=
  mkDataFrame [ ("a", int_series [1]); ("b", int_series [2]) ]%Z (Some Aliased).

Definition chain_rank (name : string) : nat :=
  if String.eqb name "c" then 2 else if String.eqb name "b" then 1 else 0.

(** ** Lemmas on the outcome monad *)

Lemma bind_Ok {A B : Type} (c : Res A) (k : A -> Res B) (b : B) :
  bind c k = Ok b -> exists a, c = Ok a /\ k a = Ok b.
Proof.
  destruct c as [a | e | ]; simpl; intros H; try discriminate.
  exists a. split; [reflexivity | exact H].
Qed.

Ltac bind_inv H :=
  let a := fresh "a" in
  let E := fresh "E" in
  apply bind_Ok in H; destruct H as (a & E & H).

Lemma mapM_In {A B : Type} (f : A -> Res B) (l : list A) (l' : list B) (x : A) :
  mapM f l = Ok l' -> In x l -> exists y, f x = Ok y /\ In y l'.
Proof.
  revert l'. induction l as [| a l IH]; intros l' H Hin; [contradiction |].
  simpl in H. bind_inv H. bind_inv H. injection H as <-.
  destruct Hin as [-> | Hin].
  - exists a0. split; [assumption | now left].
  - destruct (IH _ E0 Hin) as (y & Hy & Hy'). exists y. split; [assumption | now right].
Qed.

Lemma mapM_map {A B C : Type} (f : A -> Res B) (g : B -> C) (h : A -> C)
    (l : list A) (l' : list B) :
  (forall x y, f x = Ok y -> g y = h x) ->
  mapM f l = Ok l' -> map g l' = map h l.
Proof.
  intros Hf. revert l'. induction l as [| a l IH]; intros l' H; simpl in H.
  - injection H as <-. reflexivity.
  - bind_inv H. bind_inv H. injection H as <-. simpl.
    rewrite (Hf _ _ E), (IH _ E0). reflexivity.
Qed.

Lemma mem_In (x : string) (l : list string) : mem x l = true <-> In x l.
Proof.
  unfold mem. rewrite existsb_exists. split.
  - intros (y & Hy & E). apply String.eqb_eq in E. now subst.
  - intros H. exists x. split; [assumption | apply String.eqb_refl].
Qed.

Lemma mem_false (x : string) (l : list string) : mem x l = false <-> ~ In x l.
Proof.
  rewrite <- mem_In. destruct (mem x l); split; intros; congruence.
Qed.

(** ** get *)



(** ** Lemmas on the schema *)

Lemma column_info_Some (m : Model) (column : string) :
  mem column (columns_of m) = true <-> exists fi, column_info m column = Some fi.
Proof.
  unfold column_info, columns_of. induction (model_fields m) as [| f l IH]; simpl.
  - split; [discriminate | intros (fi & H); discriminate].
  - destruct (String.eqb column (field_name f)); simpl.
    + split; [intros _; now exists f | reflexivity].
    + exact IH.
Qed.

Lemma column_info_name (m : Model) (column : string) (fi : FieldInfo) :
  column_info m column = Some fi -> field_name fi = column /\ In fi (model_fields m).
Proof.
  unfold column_info. intros H. apply find_some in H. destruct H as [Hin E].
  apply String.eqb_eq in E. now split.
Qed.

(** ** derive: recursion and memoization *)

Lemma set_iter_singleton (so : SetOrder) (x : string) : set_iter so [x] = [x].
Proof.
  pose proof (set_iter_NoDup so [x]) as ND.
  pose proof (set_iter_In so [x]) as HI.
  destruct (set_iter so [x]) as [| a [| b l]].
  - destruct (proj2 (HI x) (or_introl eq_refl)).
  - destruct (proj1 (HI a) (or_introl eq_refl)) as [-> | []]. reflexivity.
  - exfalso.
    destruct (proj1 (HI a) (or_introl eq_refl)) as [<- | []].
    destruct (proj1 (HI b) (or_intror (or_introl eq_refl))) as [<- | []].
    inversion ND as [| ? ? Hn _]. apply Hn. now left.
Qed.

Lemma derive_column_cyclic (fuel : nat) (df : LazyFrame) :
  _derive_column fuel Cyclic df "a" = OutOfFuel.
Proof.
  revert df. induction fuel as [| fuel IH]; intros df; [reflexivity |].
  cbn -[_derive_column]. simpl. rewrite IH. reflexivity.
Qed.

(** C6. On the schema whose field [a] is derived from an expression over
    [a] itself, [derive()] raises no cyclic-derivation error and returns no
    table: whatever the depth allowed to the recursion of [_derive_column],
    the run is still recursing when the depth is used up. *)
Theorem derive_cyclic_never_returns (so : SetOrder) (fuel : nat) :
  DataFrame_derive so fuel cyclic_df None = OutOfFuel.
Proof.
  unfold DataFrame_derive, derive. cbn -[derive_loop out_cols_of set_iter].
  change (derived_columns Cyclic) with ["a"].
  rewrite set_iter_singleton. simpl derive_loop.
  rewrite derive_column_cyclic. reflexivity.
Qed.

(** C7. With the [Chain] schema ([b] computed from [a], [c] from [b]) and
    the request [derive(columns=["b", "c"])], the loop of [derive] derives
    [b], and [_derive_column] derives [b] a second time as a root of [c]:
    the accumulated [derived_columns] is [b, b, c] and the plan defines [b]
    twice. The request is also the one [derive()] makes of itself when the
    set of derived columns yields [b] first, and the call returns. *)
Theorem derive_rederives_root (fuel : nat) :
  let define_b :=
    WithColumns [Alias (Cast (Mul (Col "a") (Lit (VInt 2) Int64)) Int64) "b"] in
  let define_c :=
    WithColumns [Alias (Cast (Add (Col "b") (Lit (VInt 1) Int64)) Int64) "c"] in
  derive_loop (3 + fuel) Chain ["b"; "c"] (lazy chain_df) []
  = Ok (mkLazy (df_frame chain_df) [define_b; define_b; define_c] (Some Chain),
        ["b"; "b"; "c"])
  /\ count_occ string_dec ["b"; "b"; "c"] "b" = 2
  /\ to_derive_of insertion_order Chain None = ["b"; "c"]
  /\ DataFrame_derive insertion_order (3 + fuel) chain_df (Some ["b"; "c"])
     = Ok (mkDataFrame
             [ ("a", int_series [1]); ("b", int_series [2]); ("c", int_series [3]) ]%Z
             (Some Chain)).
Proof.
  repeat split; reflexivity.
Qed.

Lemma filter_none {A : Type} (p : A -> bool) (l : list A) :
  (forall x, In x l -> p x = false) -> List.filter p l = [].
Proof.
  induction l as [| a l IH]; intros H; [reflexivity |].
  simpl. rewrite (H a (or_introl eq_refl)). apply IH. intros x Hx. apply H. now right.
Qed.

(** When every input and every requested column is a schema field, the
    output columns are schema fields only, whatever the sets' order. *)
Lemma out_cols_schema_only (so : SetOrder) (props original_columns to_derive : list string) :
  (forall x, In x (original_columns ++ to_derive) -> In x props) ->
  out_cols_of so props original_columns to_derive
  = List.filter (fun x => mem x (original_columns ++ to_derive)) props.
Proof.
  intros H. unfold out_cols_of. cbv zeta.
  set (first := List.filter _ props).
  rewrite filter_none; [apply app_nil_r |].
  intros x Hx. apply set_iter_In in Hx. apply negb_false_iff, mem_In, filter_In.
  split; [now apply H | now apply mem_In].
Qed.

(** C8. With the [Stale] schema ([a] computed from [x], [b] a copy of
    [a]), the input [x = [1], a = [100]] and the request
    [derive(columns=["b", "a"])], the first application copies the input's
    [a] into [b] before it recomputes [a], and the second application copies
    the recomputed [a]: the two results differ in [b]. *)
Theorem derive_not_idempotent (so : SetOrder) (fuel : nat) :
  let once :=
    mkDataFrame [ ("x", int_series [1]); ("a", int_series [2]); ("b", int_series [100]) ]%Z
      (Some Stale) in
  let twice :=
    mkDataFrame [ ("x", int_series [1]); ("a", int_series [2]); ("b", int_series [2]) ]%Z
      (Some Stale) in
  DataFrame_derive so (2 + fuel) stale_df (Some ["b"; "a"]) = Ok once
  /\ DataFrame_derive so (2 + fuel) once (Some ["b"; "a"]) = Ok twice
  /\ once <> twice.
Proof.
  split; [| split].
  - unfold DataFrame_derive, derive.
    cbn -[derive_loop out_cols_of]. 
    rewrite out_cols_schema_only
      by (simpl; intros x Hx; repeat destruct Hx as [<- | Hx]; simpl; tauto).
    destruct fuel; reflexivity.
  - unfold DataFrame_derive, derive.
    cbn -[derive_loop out_cols_of].
    rewrite out_cols_schema_only
      by (simpl; intros x Hx; repeat destruct Hx as [<- | Hx]; simpl; tauto).
    destruct fuel; reflexivity.
  - discriminate.
Qed.

(** ** unalias: fields without alias *)

(** C5. For a field without alias the loop of [unalias] appends
    [pl.col(name)] to the projection whether or not the input has such a
    column; with the [Aliased] schema ([a] with alias ["A"], [b] without
    alias) and the input [A = [1]], the projection is [a, b] and the engine
    rejects it for the missing column [b]. *)
Theorem unalias_selects_missing_field :
  (forall sch fi,
      field_validation_alias fi = None -> unalias_field sch fi = Ok [Col (field_name fi)])
  /\ unalias (lazy aliased_df)
     = Ok (lf_select [Alias (Col "A") "a"; Col "b"] (lazy aliased_df))
  /\ DataFrame_unalias aliased_df = Raise (ColumnNotFoundError "b").
Proof.
  split; [| split]; try reflexivity.
  intros sch fi H. unfold unalias_field. rewrite H. reflexivity.
Qed.

(** ** Lemmas on the engine *)

Lemma first_duplicate_None (l : list string) : first_duplicate l = None -> NoDup l.
Proof.
  induction l as [| x l IH]; simpl; intros H; [constructor |].
  destruct (mem x l) eqn:M; [discriminate |].
  constructor; [now apply mem_false | now apply IH].
Qed.

Lemma check_unique_Ok (cols cols' : Frame) :
  check_unique cols = Ok cols' -> cols' = cols /\ NoDup (names cols).
Proof.
  unfold check_unique. destruct (first_duplicate (names cols)) eqn:E; [discriminate |].
  intros H. injection H as <-. split; [reflexivity | now apply first_duplicate_None].
Qed.

Lemma broadcast_length (h : nat) (ys : list Value) :
  List.length ys = h -> broadcast h ys = ys.
Proof.
  intros <-. destruct ys as [| y [| z ys]]; reflexivity.
Qed.

Lemma broadcast_one (h : nat) (y : Value) : broadcast h [y] = repeat y h.
Proof. reflexivity. Qed.

Lemma fit_fst (h : nat) (c c' : string * Series) : fit h c = Ok c' -> fst c' = fst c.
Proof.
  unfold fit. destruct (List.length (values (snd c)) =? h).
  - intros H. injection H as <-. reflexivity.
  - destruct (List.length (values (snd c)) =? 1); [| discriminate].
    intros H. injection H as <-. reflexivity.
Qed.

Lemma fit_length (h : nat) (c c' : string * Series) :
  fit h c = Ok c' -> List.length (values (snd c')) = h.
Proof.
  unfold fit. destruct (List.length (values (snd c)) =? h) eqn:E.
  - intros H. injection H as <-. now apply Nat.eqb_eq.
  - destruct (List.length (values (snd c)) =? 1) eqn:E1; [| discriminate].
    intros H. injection H as <-. simpl.
    apply Nat.eqb_eq in E1.
    destruct (values (snd c)) as [| y [| z ys]]; try discriminate.
    simpl. apply repeat_length.
Qed.

Lemma fit_same (h : nat) (c : string * Series) :
  List.length (values (snd c)) = h -> fit h c = Ok c.
Proof.
  intros H. unfold fit. apply Nat.eqb_eq in H. rewrite H. reflexivity.
Qed.

Lemma mapM_fit_names (h : nat) (cols cols' : Frame) :
  mapM (fit h) cols = Ok cols' -> names cols' = names cols.
Proof. apply mapM_map. intros x y. apply fit_fst. Qed.

Lemma mapM_fit_same (h : nat) (cols : Frame) :
  Forall (fun c => List.length (values (snd c)) = h) cols -> mapM (fit h) cols = Ok cols.
Proof.
  induction 1 as [| c cols Hc _ IH]; [reflexivity |].
  simpl. rewrite (fit_same _ _ Hc). simpl. rewrite IH. reflexivity.
Qed.

Lemma mapM_Forall {A B : Type} (f : A -> Res B) (P : B -> Prop) (l : list A) (l' : list B) :
  (forall x y, In x l -> f x = Ok y -> P y) -> mapM f l = Ok l' -> Forall P l'.
Proof.
  revert l'. induction l as [| a l IH]; intros l' Hf H; simpl in H.
  - injection H as <-. constructor.
  - bind_inv H. bind_inv H. injection H as <-. constructor.
    + apply (Hf a); [now left | assumption].
    + apply IH; [| assumption]. intros x y Hx. apply Hf. now right.
Qed.

Lemma lookup_In (name : string) (f : Frame) (s : Series) :
  lookup name f = Some s -> In (name, s) f.
Proof.
  induction f as [| [n s'] f IH]; simpl; [discriminate |].
  destruct (String.eqb name n) eqn:E.
  - apply String.eqb_eq in E. intros H. injection H as ->. left. now subst.
  - intros H. right. now apply IH.
Qed.

Lemma In_lookup (name : string) (f : Frame) (s : Series) :
  NoDup (names f) -> In (name, s) f -> lookup name f = Some s.
Proof.
  induction f as [| [n s'] f IH]; simpl; intros ND Hin; [contradiction |].
  inversion ND as [| ? ? Hn ND']; subst.
  destruct Hin as [E | Hin].
  - injection E as E1 E2. subst. rewrite String.eqb_refl. reflexivity.
  - destruct (String.eqb name n) eqn:E.
    + apply String.eqb_eq in E. subst. exfalso. apply Hn.
      apply (in_map fst) in Hin. exact Hin.
    + now apply IH.
Qed.

Lemma lookup_mem (name : string) (f : Frame) :
  mem name (names f) = true <-> exists s, lookup name f = Some s.
Proof.
  induction f as [| [n s'] f IH]; simpl.
  - split; [discriminate | intros (s & H); discriminate].
  - destruct (String.eqb name n); simpl; [| exact IH].
    split; [intros _; now exists s' | reflexivity].
Qed.

Lemma lookup_upsert_same (c : string * Series) (f : Frame) :
  lookup (fst c) (upsert c f) = Some (snd c).
Proof.
  destruct c as [cn cs]. induction f as [| [n s] f IH]; simpl.
  - rewrite String.eqb_refl. reflexivity.
  - destruct (String.eqb cn n) eqn:E; simpl; rewrite E; [reflexivity | exact IH].
Qed.

Lemma lookup_upsert_other (name : string) (c : string * Series) (f : Frame) :
  name <> fst c -> lookup name (upsert c f) = lookup name f.
Proof.
  destruct c as [cn cs]. simpl. intros Hne. apply String.eqb_neq in Hne.
  induction f as [| [n s] f IH]; simpl.
  - rewrite Hne. reflexivity.
  - destruct (String.eqb cn n) eqn:E; simpl.
    + apply String.eqb_eq in E. subst n. rewrite Hne. reflexivity.
    + rewrite IH. reflexivity.
Qed.

Lemma lookup_fold_upsert_other (name : string) (cols f : Frame) :
  ~ In name (names cols) ->
  lookup name (fold_left (fun acc c => upsert c acc) cols f) = lookup name f.
Proof.
  revert f. induction cols as [| c cols IH]; intros f Hn; [reflexivity |].
  simpl. rewrite IH by (intros H; apply Hn; now right).
  apply lookup_upsert_other. intros ->. apply Hn. now left.
Qed.

Lemma lookup_fold_upsert (c : string * Series) (cols f : Frame) :
  NoDup (names cols) -> In c cols ->
  lookup (fst c) (fold_left (fun acc c => upsert c acc) cols f) = Some (snd c).
Proof.
  revert f. induction cols as [| d cols IH]; intros f ND Hin; [contradiction |].
  inversion ND as [| ? ? Hn ND']; subst. simpl. destruct Hin as [-> | Hin].
  - rewrite lookup_fold_upsert_other by assumption. apply lookup_upsert_same.
  - now apply IH.
Qed.

Lemma upsert_all_length (h : nat) (c : string * Series) (f : Frame) :
  List.length (values (snd c)) = h -> all_length h f -> all_length h (upsert c f).
Proof.
  intros Hc. induction 1 as [| [n s] f Hd Hf IH]; simpl.
  - constructor; [assumption | constructor].
  - destruct (String.eqb (fst c) n); constructor; assumption.
Qed.

Lemma fold_upsert_all_length (h : nat) (cols f : Frame) :
  all_length h cols -> all_length h f ->
  all_length h (fold_left (fun acc c => upsert c acc) cols f).
Proof.
  intros Hc. revert f. induction Hc as [| c cols Hd _ IH]; intros f Hf; [assumption |].
  simpl. apply IH. now apply upsert_all_length.
Qed.

Lemma upsert_nonempty (c : string * Series) (f : Frame) : upsert c f <> [].
Proof. destruct f as [| [n s] f]; simpl; [| destruct (String.eqb (fst c) n)]; discriminate. Qed.

Lemma fold_upsert_nonempty (cols f : Frame) :
  cols <> [] \/ f <> [] -> fold_left (fun acc c => upsert c acc) cols f <> [].
Proof.
  revert f. induction cols as [| c cols IH]; intros f H; simpl.
  - destruct H; [congruence | assumption].
  - apply IH. right. apply upsert_nonempty.
Qed.

Lemma all_length_height (h : nat) (f : Frame) : all_length h f -> f <> [] -> height f = h.
Proof.
  intros H Hne. destruct f as [| [n s] f]; [congruence |].
  inversion H; subst. reflexivity.
Qed.

Lemma fill_zip_repeat (v : Value) (xs : list Value) :
  fill_zip xs (repeat v (List.length xs)) = map (fun x => if is_null x then v else x) xs.
Proof. induction xs as [| x xs IH]; simpl; [reflexivity | now rewrite IH]. Qed.

Lemma fill_zip_length (xs ys : list Value) : List.length (fill_zip xs ys) = List.length xs.
Proof.
  revert ys. induction xs as [| x xs IH]; intros ys; [reflexivity |].
  destruct ys; simpl; [reflexivity | now rewrite IH].
Qed.

Lemma fill_null_values_length (xs ys : list Value) :
  List.length (fill_null_values xs ys) = List.length xs.
Proof. apply fill_zip_length. Qed.

Lemma Series_new_one (v : Value) (dt : DType) (s : Series) :
  Series_new [v] dt = Ok s -> exists v', cast_value dt v = Some v' /\ s = mkSeries dt [v'].
Proof.
  unfold Series_new, cast_series. simpl.
  destruct (cast_value dt v) as [v' |]; [| discriminate].
  intros H. injection H as <-. now exists v'.
Qed.


(** *** Columns brought to a common dtype *)

Lemma fill_zip_nth (xs ys : list Value) (i : nat) :
  List.length xs = List.length ys ->
  nth i (fill_zip xs ys) VNull
  = if is_null (nth i xs VNull) then nth i ys VNull else nth i xs VNull.
Proof.
  revert ys i. induction xs as [| x xs IH]; intros [| y ys] i H; try discriminate.
  - destruct i; reflexivity.
  - simpl in H. injection H as H. destruct i; simpl; [| now apply IH].
    destruct (is_null x); reflexivity.
Qed.

Lemma fill_zip_nulls (ys : list Value) : fill_zip (repeat VNull (List.length ys)) ys = ys.
Proof. induction ys as [| y ys IH]; simpl; [reflexivity | now rewrite IH]. Qed.

Lemma fill_zip_keep (xs ys : list Value) (i : nat) :
  nth i xs VNull <> VNull -> nth i (fill_zip xs ys) VNull = nth i xs VNull.
Proof.
  revert ys i. induction xs as [| x xs IH]; intros ys i H; [reflexivity |].
  destruct ys as [| y ys]; [reflexivity |].
  destruct i; simpl in *; [| now apply IH].
  destruct x; simpl; congruence.
Qed.

Lemma traverse_length {A B : Type} (g : A -> option B) (l : list A) (l' : list B) :
  traverse g l = Some l' -> List.length l' = List.length l.
Proof.
  revert l'. induction l as [| x l IH]; intros l' H; simpl in H.
  - injection H as <-. reflexivity.
  - destruct (g x); [| discriminate]. destruct (traverse g l) as [ys |]; [| discriminate].
    injection H as <-. simpl. now rewrite (IH ys).
Qed.

Lemma dtype_eqb_eq (a b : DType) : dtype_eqb a b = true <-> a = b.
Proof.
  unfold dtype_eqb. destruct (DType_eq_dec a b); split; congruence.
Qed.

Lemma supertype_same (dt : DType) : supertype dt dt = Some dt.
Proof. induction dt; simpl; try reflexivity. now rewrite IHdt. Qed.

Lemma cast_value_null (dt : DType) : cast_value dt VNull = Some VNull.
Proof. destruct dt; reflexivity. Qed.

Lemma cast_value_nonnull (dt : DType) (v v' : Value) :
  v <> VNull -> cast_value dt v = Some v' -> v' <> VNull.
Proof.
  intros Hv H E. subst v'.
  destruct dt, v; cbn -[in_range parse_int traverse] in H; try congruence;
    try (destruct (parse_int s) as [z |]; [| discriminate]);
    try (match type of H with context [in_range ?r ?z] => destruct (in_range r z) end);
    try (match type of H with context [traverse ?g ?l] => destruct (traverse g l) end);
    simpl in H; congruence.
Qed.

Lemma upcast_value_null (from dt : DType) : upcast_value from dt VNull = Some VNull.
Proof. unfold upcast_value. destruct (dtype_eqb from dt); [reflexivity | apply cast_value_null]. Qed.

Lemma upcast_value_nonnull (from dt : DType) (v v' : Value) :
  v <> VNull -> upcast_value from dt v = Some v' -> v' <> VNull.
Proof.
  unfold upcast_value. destruct (dtype_eqb from dt).
  - intros Hv H. now injection H as <-.
  - apply cast_value_nonnull.
Qed.

Lemma upcast_value_same (dt : DType) (v : Value) : upcast_value dt dt v = Some v.
Proof.
  unfold upcast_value. now rewrite (proj2 (dtype_eqb_eq dt dt) eq_refl).
Qed.

Lemma traverse_nth (g : Value -> option Value) (xs ys : list Value) :
  g VNull = Some VNull ->
  traverse g xs = Some ys ->
  forall i, g (nth i xs VNull) = Some (nth i ys VNull).
Proof.
  intros Hg. revert ys. induction xs as [| x xs IH]; intros ys H i; simpl in H.
  - injection H as <-. destruct i; exact Hg.
  - destruct (g x) as [y |] eqn:Hx; [| discriminate].
    destruct (traverse g xs) as [ys' |]; [| discriminate]. injection H as <-.
    destruct i; simpl; [exact Hx | now apply IH].
Qed.

Lemma upcast_spec (st : DType) (s s' : Series) :
  upcast st s = Ok s' ->
  dtype s' = st
  /\ List.length (values s') = List.length (values s)
  /\ forall i,
       upcast_value (dtype s) st (nth i (values s) VNull) = Some (nth i (values s') VNull).
Proof.
  unfold upcast, upcast_value. destruct (dtype_eqb (dtype s) st) eqn:E.
  - intros H. injection H as <-. apply dtype_eqb_eq in E. repeat split; auto.
  - unfold cast_series.
    destruct (traverse (cast_value st) (values s)) as [vs |] eqn:T; [| discriminate].
    intros H. injection H as <-. simpl. split; [reflexivity |]. split.
    + eapply traverse_length; eassumption.
    + apply traverse_nth; [apply cast_value_null | exact T].
Qed.

Lemma nth_repeat_or (y d : Value) (n i : nat) :
  nth i (repeat y n) d = if i <? n then y else d.
Proof.
  revert i. induction n as [| n IH]; intros i; simpl.
  - destruct i; reflexivity.
  - destruct i; [reflexivity |]. apply IH.
Qed.

Lemma broadcast_shape (n : nat) (ys : list Value) :
  shape_ok n ys = true -> List.length (broadcast n ys) = n.
Proof.
  unfold shape_ok. intros H. apply orb_true_iff in H. destruct H as [H | H].
  - apply Nat.eqb_eq in H. now rewrite broadcast_length.
  - apply Nat.eqb_eq in H. destruct ys as [| y [| z ys]]; try discriminate.
    simpl. apply repeat_length.
Qed.

Lemma broadcast_nth (g : Value -> option Value) (n : nat) (ys ys' : list Value) :
  g VNull = Some VNull ->
  List.length ys' = List.length ys ->
  (forall i, g (nth i ys VNull) = Some (nth i ys' VNull)) ->
  forall i, g (nth i (broadcast n ys) VNull) = Some (nth i (broadcast n ys') VNull).
Proof.
  intros Hg Hlen Hall i.
  destruct ys as [| y [| z ys]], ys' as [| y' [| z' ys']]; try discriminate; try apply Hall.
  simpl. rewrite !nth_repeat_or. destruct (i <? n); [apply (Hall 0) | exact Hg].
Qed.

(** What [fill_null] does to one row: a value that is not null stays, in
    the common dtype; a null takes the value of the other column, in the
    common dtype. *)
Lemma fill_null_series_rows (s v r : Series) :
  fill_null_series s v = Ok r ->
  exists st,
    supertype (dtype s) (dtype v) = Some st
    /\ dtype r = st
    /\ List.length (values r) = List.length (values s)
    /\ forall i,
         (nth i (values s) VNull <> VNull ->
          upcast_value (dtype s) st (nth i (values s) VNull) = Some (nth i (values r) VNull)
          /\ nth i (values r) VNull <> VNull)
         /\ (nth i (values s) VNull = VNull ->
             shape_ok (List.length (values s)) (values v) = true ->
             upcast_value (dtype v) st
               (nth i (broadcast (List.length (values s)) (values v)) VNull)
             = Some (nth i (values r) VNull)).
Proof.
  unfold fill_null_series. destruct (supertype (dtype s) (dtype v)) as [st |]; [| discriminate].
  intros H. apply bind_Ok in H. destruct H as (s' & Hs & H).
  apply bind_Ok in H. destruct H as (v' & Hv & H). injection H as <-.
  apply upcast_spec in Hs. destruct Hs as (_ & Ls & Rs).
  apply upcast_spec in Hv. destruct Hv as (_ & Lv & Rv).
  exists st. split; [reflexivity |]. split; [reflexivity |]. cbn [values].
  split; [now rewrite fill_null_values_length |].
  intros i. unfold fill_null_values. rewrite Ls. split.
  - intros Hnn. pose proof (upcast_value_nonnull _ _ _ _ Hnn (Rs i)) as Hnn'.
    rewrite fill_zip_keep by exact Hnn'. split; [apply Rs | exact Hnn'].
  - intros Hnull Hshape.
    assert (Hshape' : shape_ok (List.length (values s)) (values v') = true)
      by (unfold shape_ok in *; now rewrite Lv).
    rewrite fill_zip_nth by (rewrite (broadcast_shape _ _ Hshape'); exact Ls).
    pose proof (Rs i) as Hi. rewrite Hnull, upcast_value_null in Hi. injection Hi as <-.
    simpl. apply broadcast_nth; [apply upcast_value_null | exact Lv | exact Rv].
Qed.

Lemma fill_null_series_same (s v : Series) :
  dtype v = dtype s ->
  fill_null_series s v
  = Ok (mkSeries (dtype s) (fill_null_values (values s) (values v))).
Proof.
  intros E. unfold fill_null_series, upcast. rewrite E, supertype_same.
  now rewrite (proj2 (dtype_eqb_eq _ _) eq_refl).
Qed.
(** ** fill_null *)

Lemma defaults_In (m : Model) (fi : FieldInfo) (default : Value) :
  In fi (model_fields m) -> field_default fi = Some default ->
  In (field_name fi, (default, field_dtype fi)) (defaults m).
Proof.
  intros Hin Hd. unfold defaults. apply in_flat_map. exists fi.
  split; [assumption |]. rewrite Hd. now left.
Qed.

(** The defaults filled in by an engine that repeats a one-element
    [Series]. *)
Lemma fill_null_defaults_repeating (super_fill_null : option Strategy -> Frame -> Res Frame)
    (self out : DataFrame) (m : Model) (fi : FieldInfo) (default : Value) :
  df_model self = Some m ->
  rectangular (df_frame self) ->
  In fi (model_fields m) ->
  field_default fi = Some default ->
  fill_null super_fill_null (Some Defaults) self = Ok out ->
  exists v,
    cast_value (field_dtype fi) default = Some v
    /\ (forall s,
          lookup (field_name fi) (df_frame self) = Some s ->
          exists st o,
            supertype (dtype s) (field_dtype fi) = Some st
            /\ lookup (field_name fi) (df_frame out) = Some o
            /\ dtype o = st
            /\ List.length (values o) = List.length (values s)
            /\ forall i,
                 i < List.length (values s) ->
                 filled_row (dtype s) (nth i (values s) VNull) (field_dtype fi) v st
                   (nth i (values o) VNull))
    /\ (lookup (field_name fi) (df_frame self) = None ->
        lookup (field_name fi) (df_frame out)
        = Some (mkSeries (field_dtype fi) (repeat v (height (df_frame out)))))
    /\ (df_frame self <> [] -> height (df_frame out) = height (df_frame self)).
Proof.
  intros Hm Hrect Hin Hd H.
  pose proof (defaults_In m fi default Hin Hd) as Hdef.
  unfold fill_null, fill_null_on in H. rewrite Hm in H. simpl in H.
  bind_inv H. rename a into exprs, E into Hexprs.
  bind_inv H. rename a into f', E into Hwc. injection H as <-. simpl.
  unfold with_columns in Hwc.
  bind_inv Hwc. rename a into cols0, E into Hcols0.
  bind_inv Hwc. apply check_unique_Ok in E. destruct E as [-> ND].
  bind_inv Hwc. rename a into cols, E into Hfit. injection Hwc as <-.
  set (f := df_frame self) in *.
  set (h := match f with [] => max_length cols0 | _ :: _ => height f end) in *.
  assert (Hnames : names cols = names cols0) by (eapply mapM_fit_names; eassumption).
  assert (Hlen : all_length h cols).
  { eapply mapM_Forall; [| exact Hfit]. intros x y _. apply fit_length. }
  assert (Hf : all_length h f).
  { subst h. destruct f; [constructor | exact Hrect]. }
  assert (Hall : all_length h (fold_left (fun acc c => upsert c acc) cols f))
    by (now apply fold_upsert_all_length).
  destruct (mapM_In _ _ _ _ Hexprs Hdef) as (e & He & Hein).
  destruct (mapM_In _ _ _ _ Hcols0 Hein) as (c0 & Hc0 & Hc0in).
  destruct (mapM_In _ _ _ _ Hfit Hc0in) as (c & Hc & Hcin).
  assert (Hlook : lookup (fst c) (fold_left (fun acc c => upsert c acc) cols f)
                  = Some (snd c)).
  { apply lookup_fold_upsert; [now rewrite Hnames | assumption]. }
  assert (Hheight : height (fold_left (fun acc c => upsert c acc) cols f) = h).
  { apply all_length_height; [assumption |].
    apply fold_upsert_nonempty. left. intros ->. contradiction. }
  unfold default_expr in He.
  destruct (mem (field_name fi) (names f)) eqn:M.
  - (* the column is there *)
    injection He as <-. simpl in Hc0.
    apply lookup_mem in M. destruct M as (s & Hs). rewrite Hs in Hc0. simpl in Hc0.
    apply bind_Ok in Hc0. destruct Hc0 as ([n lit] & Hlit & Hc0).
    apply bind_Ok in Hlit. destruct Hlit as (lit' & Hnew & Hlit). injection Hlit as _ <-.
    apply Series_new_one in Hnew. destruct Hnew as (v & Hv & ->).
    cbn [values] in Hc0.
    assert (Hshape : shape_ok (List.length (values s)) [v] = true)
      by (unfold shape_ok; simpl; now rewrite orb_true_r).
    rewrite Hshape in Hc0.
    apply bind_Ok in Hc0. destruct Hc0 as (r & Hr & Hc0). injection Hc0 as <-.
    apply fill_null_series_rows in Hr. destruct Hr as (st & Hst & Hdt & Hlr & Hrows).
    cbn [dtype values] in Hst, Hrows.
    assert (Hs_len : List.length (values s) = h).
    { apply lookup_In in Hs. unfold all_length in Hf. rewrite Forall_forall in Hf.
      exact (Hf _ Hs). }
    rewrite fit_same in Hc by (cbn [snd]; congruence).
    injection Hc as <-. cbn [fst snd] in Hlook.
    exists v. split; [assumption |]. split; [| split].
    + intros s' Hs'. rewrite Hs in Hs'. injection Hs' as <-.
      exists st, r. repeat split; try assumption.
      * intros Hnn. now apply Hrows.
      * intros Hnull. destruct (Hrows i) as [_ Hfill].
        specialize (Hfill Hnull Hshape). simpl in Hfill.
        rewrite nth_repeat_or in Hfill.
        now rewrite (proj2 (Nat.ltb_lt _ _) H) in Hfill.
    + intros Hnone. congruence.
    + intros Hne. rewrite Hheight. subst h. destruct f; [congruence | reflexivity].
  - (* the column is missing *)
    bind_inv He. apply Series_new_one in E. destruct E as (v & Hv & ->).
    injection He as <-. simpl in Hc0. injection Hc0 as <-.
    assert (Hc' : c = (field_name fi, mkSeries (field_dtype fi) (repeat v h))).
    { unfold fit in Hc. cbn [snd fst values dtype List.length] in Hc.
      destruct (1 =? h) eqn:E1.
      - apply Nat.eqb_eq in E1. subst h. rewrite <- E1. now injection Hc as <-.
      - simpl in Hc. now injection Hc as <-. }
    subst c. cbn [fst snd] in Hlook.
    exists v. split; [assumption |]. split; [| split].
    + intros s Hs. exfalso.
      assert (M' : mem (field_name fi) (names f) = true)
        by (apply lookup_mem; now exists s).
      congruence.
    + intros _. rewrite Hlook, Hheight. reflexivity.
    + intros Hne. rewrite Hheight. subst h. destruct f; [congruence | reflexivity].
Qed.

Lemma mapM_length {A B : Type} (g : A -> Res B) (l : list A) (l' : list B) :
  mapM g l = Ok l' -> List.length l' = List.length l.
Proof.
  revert l'. induction l as [| a l IH]; intros l' H; simpl in H.
  - now injection H as <-.
  - apply bind_Ok in H. destruct H as (y & _ & H).
    apply bind_Ok in H. destruct H as (ys & Hys & H). injection H as <-.
    simpl. now rewrite (IH ys).
Qed.

Lemma fit_exact_fit (h : nat) (e : Expr) (c c' : string * Series) :
  fit_exact h (e, c) = Ok c' -> fit h c = Ok c'.
Proof. unfold fit_exact. destruct (_ || _); [trivial | discriminate]. Qed.

Lemma mapM_fit_exact (h : nat) (exprs : list Expr) (cols fitted : Frame) :
  List.length cols = List.length exprs ->
  mapM (fit_exact h) (combine exprs cols) = Ok fitted -> mapM (fit h) cols = Ok fitted.
Proof.
  revert cols fitted. induction exprs as [| e exprs IH]; intros [| c cols] fitted Hlen H;
    try discriminate; [exact H |].
  simpl in H. apply bind_Ok in H. destruct H as (c' & Hc' & H).
  apply bind_Ok in H. destruct H as (rest & Hrest & H). injection H as <-.
  simpl. rewrite (fit_exact_fit _ _ _ _ Hc'). simpl.
  rewrite (IH cols rest); [reflexivity | now injection Hlen | exact Hrest].
Qed.

(** What the newer engine returns, the older one returns. *)
Lemma with_columns_exact_Ok (exprs : list Expr) (f out : Frame) :
  with_columns_exact exprs f = Ok out -> with_columns exprs f = Ok out.
Proof.
  unfold with_columns_exact, with_columns. intros H.
  apply bind_Ok in H. destruct H as (cols & Hcols & H). rewrite Hcols. cbn [bind].
  apply bind_Ok in H. destruct H as (cols' & Hu & H). rewrite Hu. cbn [bind].
  apply bind_Ok in H. destruct H as (fitted & Hfit & H).
  pose proof (check_unique_Ok _ _ Hu) as [-> _].
  rewrite (mapM_fit_exact _ exprs cols fitted); [exact H | | exact Hfit].
  eapply mapM_length; eassumption.
Qed.

Lemma fill_null_on_exact (super_fill_null : option Strategy -> Frame -> Res Frame)
    (self out : DataFrame) :
  fill_null_on with_columns_exact super_fill_null (Some Defaults) self = Ok out ->
  fill_null_on with_columns super_fill_null (Some Defaults) self = Ok out.
Proof.
  unfold fill_null_on. intros H.
  apply bind_Ok in H. destruct H as (m & Hm & H). rewrite Hm. cbn [bind].
  apply bind_Ok in H. destruct H as (exprs & Hexprs & H). rewrite Hexprs. cbn [bind].
  apply bind_Ok in H. destruct H as (f & Hf & H).
  now rewrite (with_columns_exact_Ok _ _ _ Hf).
Qed.




(** The docstring of [fill_null], and the frame without the column: an
    engine that repeats a one-element [Series] gives the default in both
    rows, one that does not raises. *)
Example fill_null_docstring :
  fill_null (fun _ f => Ok f) (Some Defaults) priced_df
  = Ok (mkDataFrame [ ("name", mkSeries Utf8 [VStr "apple"; VStr "banana"]);
                      ("price", mkSeries Int64 [VInt 10; VInt 19]) ] (Some Priced))
  /\ fill_null (fun _ f => Ok f) (Some Defaults) unpriced_df = Ok filled_df
  /\ fill_null_on with_columns_exact (fun _ f => Ok f) (Some Defaults) unpriced_df
     = Raise ShapeError.
Proof. repeat split; reflexivity. Qed.

(** ** unalias: precedence of the canonical column *)

Lemma ValidationAlias_nested_ind (P : ValidationAlias -> Prop) :
  (forall name, P (AliasStr name)) ->
  (forall first rest, P (AliasPath first rest)) ->
  (forall choices, Forall P choices -> P (AliasChoices choices)) ->
  forall va, P va.
Proof.
  intros Hs Hp Hc. fix IH 1. intros [name | first rest | choices].
  - apply Hs.
  - apply Hp.
  - apply Hc. induction choices as [| c cs IHcs]; constructor; [apply IH | exact IHcs].
Qed.

Lemma choices_loop_column_expr (rec : ValidationAlias -> Res (option Expr))
    (choices : list ValidationAlias) (acc : option Expr) (e : Expr) :
  Forall (fun c => forall e, rec c = Ok (Some e) -> column_expr e) choices ->
  (forall l, acc = Some l -> column_expr l) ->
  choices_loop rec choices acc = Ok (Some e) -> column_expr e.
Proof.
  intros Hall. revert acc. induction Hall as [| c cs Hc _ IH]; intros acc Hacc H; simpl in H.
  - injection H as ->. now apply Hacc.
  - bind_inv H. destruct a as [p |].
    + apply (IH _) in H; [assumption |].
      intros l Hl. injection Hl as <-. destruct acc as [l' |].
      * constructor; [now apply Hacc | now apply Hc].
      * now apply Hc.
    + now apply (IH acc).
Qed.

Lemma to_expr_column_expr (sch : Res (list string)) (va : ValidationAlias) (e : Expr) :
  to_expr sch va = Ok (Some e) -> column_expr e.
Proof.
  revert e. induction va as [name | first rest | choices IH] using ValidationAlias_nested_ind;
    intros e H; simpl in H.
  - bind_inv H. destruct (mem name a); [| discriminate].
    injection H as <-. constructor.
  - destruct rest as [| [s | index] [| ? ?]]; try discriminate.
    bind_inv H. destruct (mem first a); [| discriminate].
    injection H as <-. repeat constructor.
  - apply (choices_loop_column_expr (to_expr sch) choices None e IH);
      [intros l Hl; discriminate Hl | exact H].
Qed.

Lemma unalias_field_column_expr (sch : Res (list string)) (fi : FieldInfo) (this : list Expr) :
  unalias_field sch fi = Ok this -> Forall column_expr this.
Proof.
  unfold unalias_field. destruct (field_validation_alias fi) as [va |].
  - intros H. bind_inv H. bind_inv H.
    pose proof (to_expr_column_expr sch va) as Hce. rewrite E in Hce.
    destruct (mem (field_name fi) a0); injection H as <-; destruct a as [e |];
      repeat constructor; now apply Hce.
  - intros H. injection H as <-. repeat constructor.
Qed.

Lemma unalias_exprs_In (sch : Res (list string)) (fields : list FieldInfo)
    (exprs : list Expr) (fi : FieldInfo) :
  unalias_exprs sch fields = Ok exprs -> In fi fields ->
  exists this, unalias_field sch fi = Ok this /\ incl this exprs.
Proof.
  revert exprs. induction fields as [| f fields IH]; intros exprs H Hin; [contradiction |].
  simpl in H. bind_inv H. bind_inv H. injection H as <-.
  destruct Hin as [-> | Hin].
  - exists a. split; [assumption | now apply incl_appl].
  - destruct (IH _ E0 Hin) as (this & Ht & Hi). exists this.
    split; [assumption | now apply incl_appr].
Qed.

Lemma unalias_exprs_column_expr (sch : Res (list string)) (fields : list FieldInfo)
    (exprs : list Expr) :
  unalias_exprs sch fields = Ok exprs -> Forall column_expr exprs.
Proof.
  revert exprs. induction fields as [| f fields IH]; intros exprs H; simpl in H.
  - injection H as <-. constructor.
  - bind_inv H. bind_inv H. injection H as <-. apply Forall_app. split.
    + eapply unalias_field_column_expr; eassumption.
    + now apply IH.
Qed.

Lemma eval_column_expr_length (f : Frame) (e : Expr) (c : string * Series) :
  rectangular f -> column_expr e -> eval f e = Ok c ->
  List.length (values (snd c)) = height f.
Proof.
  intros Hrect He. revert c. induction He as [n | e i _ IH | e v _ IH _ _ | e n _ IH];
    intros c H; simpl in H.
  - destruct (lookup n f) as [s |] eqn:Hs; [| discriminate].
    injection H as <-. apply lookup_In in Hs.
    unfold rectangular, all_length in Hrect. rewrite Forall_forall in Hrect.
    exact (Hrect _ Hs).
  - bind_inv H. destruct a as [n s]. injection H as <-. simpl.
    rewrite length_map. exact (IH _ E).
  - bind_inv H. destruct a as [n s]. bind_inv H. destruct a as [n' sv].
    destruct (shape_ok (List.length (values s)) (values sv)); [| discriminate].
    apply bind_Ok in H. destruct H as (r & Hr & H). injection H as <-.
    apply fill_null_series_rows in Hr. destruct Hr as (st & _ & _ & Hlen & _).
    simpl. rewrite Hlen. exact (IH _ E).
  - bind_inv H. destruct a as [n' s]. injection H as <-. exact (IH _ E).
Qed.

Lemma max_length_all (h : nat) (cols : Frame) :
  all_length h cols -> cols <> [] -> max_length cols = h.
Proof.
  induction 1 as [| c cols Hc Hall IH]; intros Hne; [congruence |].
  simpl. rewrite Hc. destruct cols as [| d cols].
  - simpl. apply Nat.max_0_r.
  - fold (max_length (d :: cols)). rewrite IH by discriminate. apply Nat.max_id.
Qed.

(** Selecting column expressions from a rectangular frame gives their
    values as they are, under distinct names. *)
Lemma select_column_exprs (f out : Frame) (exprs : list Expr) :
  rectangular f -> Forall column_expr exprs -> select exprs f = Ok out ->
  mapM (eval f) exprs = Ok out /\ NoDup (names out).
Proof.
  intros Hrect Hce H. unfold select in H.
  bind_inv H. rename a into cols. bind_inv H.
  apply check_unique_Ok in E0. destruct E0 as [-> ND].
  assert (Hall : all_length (height f) cols).
  { eapply mapM_Forall; [| exact E]. intros x y Hx Hy.
    rewrite Forall_forall in Hce. eapply eval_column_expr_length; eauto. }
  destruct cols as [| c cols].
  - simpl in H. injection H as <-. split; [assumption | constructor].
  - rewrite (max_length_all (height f)) in H by (assumption || discriminate).
    rewrite mapM_fit_same in H by assumption. injection H as <-. now split.
Qed.

Lemma schema_names_lazy (self : DataFrame) :
  schema_names (lazy self) = Ok (names (df_frame self)).
Proof.
  unfold schema_names, collect_schema, lazy. simpl.
  rewrite map_map. reflexivity.
Qed.




(** Where the two columns have one dtype, the values are kept as they
    are. *)
Example unalias_preferred : DataFrame_unalias preferred_df = Ok preferred_out.
Proof. reflexivity. Qed.

(** ** unalias: choices *)

Lemma choices_loop_resolved (rec : ValidationAlias -> Res (option Expr))
    (choices : list ValidationAlias) (acc : option Expr) :
  choices_loop rec choices acc
  = (parts <- resolved rec choices ;;
     Ok (fold_left (fun a p => Some (match a with
                                     | Some l => FillNull l p
                                     | None => p
                                     end)) parts acc)).
Proof.
  revert acc. induction choices as [| c cs IH]; intros acc; [reflexivity |].
  simpl. destruct (rec c) as [[p |] | err |]; simpl; try reflexivity.
  - rewrite IH. destruct (resolved rec cs); reflexivity.
  - rewrite IH. destruct (resolved rec cs); reflexivity.
Qed.

Lemma fold_fill_Some (parts : list Expr) (l : Expr) :
  fold_left (fun a p => Some (match a with
                              | Some l => FillNull l p
                              | None => p
                              end)) parts (Some l)
  = Some (fold_left FillNull parts l).
Proof. revert l. induction parts as [| p ps IH]; intros l; [reflexivity | apply IH]. Qed.

Lemma eval_fill_prefix (f : Frame) (parts : list Expr) (e0 : Expr) (c : string * Series) :
  eval f (fold_left FillNull parts e0) = Ok c -> exists c0, eval f e0 = Ok c0.
Proof.
  revert e0. induction parts as [| p ps IH]; intros e0 H; [now exists c |].
  simpl in H. apply IH in H. destruct H as (c1 & H). simpl in H.
  bind_inv H. now exists a.
Qed.

Lemma eval_fill_chain (f : Frame) (parts : list Expr) (e0 : Expr) (c0 c : string * Series) :
  eval f e0 = Ok c0 ->
  eval f (fold_left FillNull parts e0) = Ok c ->
  exists cols,
    Forall2 (evaluates f) parts cols
    /\ fill_all (snd c0) cols = Ok (snd c).
Proof.
  revert e0 c0. induction parts as [| p ps IH]; intros e0 c0 H0 H.
  - simpl in H. exists []. split; [apply Forall2_nil | simpl; congruence].
  - simpl in H. destruct (eval_fill_prefix _ _ _ _ H) as (c1 & H1).
    destruct (IH _ _ H1 H) as (cols & Hcols & Hval).
    simpl in H1. rewrite H0 in H1. destruct c0 as [n s]. simpl in H1.
    bind_inv H1. destruct a as [n' sp].
    destruct (shape_ok (List.length (values s)) (values sp)); [| discriminate].
    apply bind_Ok in H1. destruct H1 as (r & Hr & H1). injection H1 as <-.
    exists (sp :: cols). split.
    + constructor; [| assumption]. now exists n'.
    + simpl. rewrite Hr. exact Hval.
Qed.

Lemma fill_all_app (acc : Series) (l1 l2 : list Series) :
  fill_all acc (l1 ++ l2) = (a <- fill_all acc l1 ;; fill_all a l2).
Proof.
  revert acc. induction l1 as [| s l1 IH]; intros acc; [reflexivity |].
  simpl. destruct (fill_null_series acc s); simpl; [apply IH | reflexivity | reflexivity].
Qed.

Lemma fill_all_recast (cols : list Series) (p r : Series) (i : nat) :
  fill_all p cols = Ok r ->
  nth i (values p) VNull <> VNull ->
  recast (dtype p) (map dtype cols) (nth i (values p) VNull) = Some (nth i (values r) VNull).
Proof.
  revert p. induction cols as [| s cols IH]; intros p H Hnn.
  - simpl in H. injection H as <-. reflexivity.
  - simpl in H. apply bind_Ok in H. destruct H as (a & Ha & H).
    apply fill_null_series_rows in Ha. destruct Ha as (st & Hst & Hdt & _ & Hrows).
    destruct (Hrows i) as [Hkeep _]. destruct (Hkeep Hnn) as [Hup Hnn'].
    simpl. rewrite Hst, Hup. subst st. now apply IH.
Qed.

Lemma In_firstn {A : Type} (k : nat) (l : list A) (x : A) : In x (firstn k l) -> In x l.
Proof. intros H. rewrite <- (firstn_skipn k l). apply in_or_app. now left. Qed.

Lemma In_skipn {A : Type} (k : nat) (l : list A) (x : A) : In x (skipn k l) -> In x l.
Proof. intros H. rewrite <- (firstn_skipn k l). apply in_or_app. now right. Qed.

Lemma fill_all_dtype (cols : list Series) (acc r : Series) :
  (forall s, In s cols -> dtype s = dtype acc) ->
  fill_all acc cols = Ok r -> dtype r = dtype acc.
Proof.
  revert acc. induction cols as [| s cols IH]; intros acc Hsame H.
  - simpl in H. now injection H as <-.
  - simpl in H. apply bind_Ok in H. destruct H as (a & Ha & H).
    apply fill_null_series_rows in Ha. destruct Ha as (st & Hst & Hdt & _).
    rewrite (Hsame s (or_introl eq_refl)), supertype_same in Hst. injection Hst as <-.
    rewrite <- Hdt. apply IH; [| exact H].
    intros s' Hs'. rewrite Hdt. apply Hsame. now right.
Qed.

Lemma recast_same (dts : list DType) (from : DType) (v : Value) :
  (forall d, In d dts -> d = from) -> recast from dts v = Some v.
Proof.
  induction dts as [| d dts IH]; intros Hsame; [reflexivity |].
  simpl. rewrite (Hsame d (or_introl eq_refl)), supertype_same, upcast_value_same.
  apply IH. intros d' Hd'. apply Hsame. now right.
Qed.

Lemma fill_all_null_first (first : Series) :
  fill_null_series (all_null (dtype first) (List.length (values first))) first = Ok first.
Proof.
  destruct first as [dt vs]. unfold fill_null_series, all_null, upcast. cbn [dtype values].
  rewrite supertype_same. cbn [dtype]. rewrite (proj2 (dtype_eqb_eq dt dt) eq_refl).
  cbn [bind values]. unfold fill_null_values.
  rewrite repeat_length, broadcast_length by reflexivity.
  now rewrite fill_zip_nulls.
Qed.



(** Candidates of two dtypes come out in the common one: the integers
    [[null, 2]] and the strings [["x", "y"]] give the strings
    [["x", "2"]]. *)
Example choices_mixed_dtypes :
  DataFrame_unalias
    (mkDataFrame [ ("A", mkSeries Int64 [VNull; VInt 2]);
                   ("B", mkSeries Utf8 [VStr "x"; VStr "y"]) ]%Z (Some Choice))
  = Ok (mkDataFrame [ ("v", mkSeries Utf8 [VStr "x"; VStr "2"]) ] (Some Choice)).
Proof. reflexivity. Qed.

(** ** derive: column order *)

Lemma extends_refl (m : Model) (df : LazyFrame) : extends m df df.
Proof.
  split; [reflexivity |]. split; [reflexivity |].
  exists []. split; [now rewrite app_nil_r | constructor].
Qed.

Lemma extends_trans (m : Model) (a b c : LazyFrame) :
  extends m a b -> extends m b c -> extends m a c.
Proof.
  intros (S1 & M1 & ops1 & P1 & F1) (S2 & M2 & ops2 & P2 & F2).
  split; [congruence |]. split; [congruence |].
  exists (ops1 ++ ops2). split.
  - rewrite P2, P1, app_assoc. reflexivity.
  - apply Forall_app. now split.
Qed.

Lemma extends_define (m : Model) (df : LazyFrame) (e : Expr) (name : string) :
  In name (columns_of m) -> extends m df (lf_with_columns [Alias e name] df).
Proof.
  intros Hin. split; [reflexivity |]. split; [reflexivity |].
  exists [WithColumns [Alias e name]]. split; [reflexivity |].
  constructor; [| constructor]. now exists e, name.
Qed.

Lemma derive_roots_extends (m : Model)
    (rec : LazyFrame -> string -> Res (LazyFrame * list string)) :
  (forall df name df' d, rec df name = Ok (df', d) -> extends m df df') ->
  forall root_cols df acc df' d,
    derive_roots rec root_cols df acc = Ok (df', d) -> extends m df df'.
Proof.
  intros Hrec. induction root_cols as [| r rest IH]; intros df acc df' d H; simpl in H.
  - injection H as <- _. apply extends_refl.
  - bind_inv H. destruct a as [df1 d1].
    eapply extends_trans; [eapply Hrec; eassumption | eapply IH; eassumption].
Qed.

Lemma derive_column_extends (m : Model) (fuel : nat) :
  forall df name df' d,
    _derive_column fuel m df name = Ok (df', d) -> extends m df df'.
Proof.
  induction fuel as [| fuel IH]; intros df name df' d H; [discriminate |].
  simpl in H. destruct (column_info m name) as [info |] eqn:Hinfo.
  - assert (Hin : In name (columns_of m)).
    { apply mem_In, column_info_Some. now exists info. }
    destruct (field_derived_from info) as [[source | e | ty] |].
    + injection H as <- _. now apply extends_define.
    + bind_inv H. destruct a as [df1 d1]. injection H as <- _.
      eapply extends_trans.
      * eapply derive_roots_extends; [exact IH | eassumption].
      * now apply extends_define.
    + discriminate.
    + injection H as <- _. apply extends_refl.
  - injection H as <- _. apply extends_refl.
Qed.

Lemma derive_loop_extends (m : Model) (fuel : nat) (to_derive : list string) :
  forall self acc self' d,
    derive_loop fuel m to_derive self acc = Ok (self', d) -> extends m self self'.
Proof.
  induction to_derive as [| c rest IH]; intros self acc self' d H; simpl in H.
  - injection H as <- _. apply extends_refl.
  - destruct (mem c acc).
    + eapply IH; eassumption.
    + bind_inv H. destruct a as [self1 d1].
      eapply extends_trans; [eapply derive_column_extends | eapply IH]; eassumption.
Qed.

Lemma run_steps_Raise (plan : list Op) (err : Error) :
  fold_left (fun acc op => f <- acc ;; run_op op f) plan (Raise err) = Raise err.
Proof. induction plan as [| op plan IH]; [reflexivity | exact IH]. Qed.

Lemma run_steps_OutOfFuel (plan : list Op) :
  fold_left (fun acc op => f <- acc ;; run_op op f) plan (@OutOfFuel Frame) = OutOfFuel.
Proof. induction plan as [| op plan IH]; [reflexivity | exact IH]. Qed.

Lemma run_plan_app (p q : list Op) (f : Frame) :
  run_plan (p ++ q) f = (f' <- run_plan p f ;; run_plan q f').
Proof.
  unfold run_plan. rewrite fold_left_app.
  destruct (fold_left (fun acc op => f0 <- acc ;; run_op op f0) p (Ok f)); simpl.
  - reflexivity.
  - apply run_steps_Raise.
  - apply run_steps_OutOfFuel.
Qed.

Lemma run_plan_cons (op : Op) (q : list Op) (f : Frame) :
  run_plan (op :: q) f = (f' <- run_op op f ;; run_plan q f').
Proof. apply (run_plan_app [op] q f). Qed.

Lemma names_upsert (c : string * Series) (f : Frame) (x : string) :
  In x (names (upsert c f)) -> x = fst c \/ In x (names f).
Proof.
  induction f as [| [n s] f IH]; simpl.
  - intros [H | []]. now left.
  - destruct (String.eqb (fst c) n); simpl; [tauto |].
    intros [H | H]; [tauto |]. destruct (IH H); tauto.
Qed.

Lemma with_columns_define (e : Expr) (name : string) (f f' : Frame) :
  with_columns [Alias e name] f = Ok f' -> exists s, f' = upsert (name, s) f.
Proof.
  unfold with_columns. intros H.
  apply bind_Ok in H. destruct H as (cols & Hcols & H).
  cbn [mapM] in Hcols.
  apply bind_Ok in Hcols. destruct Hcols as (c & Hc & Hcols).
  cbn [bind] in Hcols. injection Hcols as <-.
  cbn [eval] in Hc. apply bind_Ok in Hc. destruct Hc as ([n s] & _ & Hc).
  injection Hc as <-.
  apply bind_Ok in H. destruct H as (cols' & Hu & H).
  apply check_unique_Ok in Hu. destruct Hu as [-> _].
  apply bind_Ok in H. destruct H as (fitted & Hfit & H).
  cbn [mapM] in Hfit.
  apply bind_Ok in Hfit. destruct Hfit as (c' & Hc' & Hfit).
  cbn [bind] in Hfit. injection Hfit as <-.
  injection H as <-. cbn [fold_left].
  apply fit_fst in Hc'. destruct c' as [n' s']. simpl in Hc'. subst n'.
  now exists s'.
Qed.

Lemma derive_op_names (m : Model) (op : Op) (f f' : Frame) (x : string) :
  derive_op m op -> run_op op f = Ok f' -> In x (names f') ->
  In x (names f) \/ In x (columns_of m).
Proof.
  intros (e & name & -> & Hin) H Hx. simpl in H.
  apply with_columns_define in H. destruct H as (s & ->).
  apply names_upsert in Hx. simpl in Hx.
  destruct Hx as [-> | Hx]; [now right | now left].
Qed.

Lemma derive_ops_names (m : Model) (ops : list Op) (f f' : Frame) (x : string) :
  Forall (derive_op m) ops -> run_plan ops f = Ok f' -> In x (names f') ->
  In x (names f) \/ In x (columns_of m).
Proof.
  intros Hops. revert f. induction Hops as [| op ops Hop _ IH]; intros f H Hx.
  - injection H as <-. now left.
  - rewrite run_plan_cons in H. bind_inv H.
    destruct (IH _ H Hx) as [Hin | Hin]; [| now right].
    eapply derive_op_names; eassumption.
Qed.

Lemma select_columns (l : list string) (f out : Frame) :
  select (map Col l) f = Ok out ->
  names out = l /\ Forall (fun x => In x (names f)) l.
Proof.
  unfold select. intros H. bind_inv H. rename a into cols. bind_inv H.
  apply check_unique_Ok in E0. destruct E0 as [-> _].
  apply mapM_fit_names in H. rewrite H. clear H.
  revert cols E. induction l as [| x l IH]; intros cols E; simpl in E.
  - injection E as <-. split; constructor.
  - bind_inv E. bind_inv E. injection E as <-.
    destruct (lookup x f) as [s |] eqn:Hs; [| discriminate]. injection E0 as <-.
    destruct (IH _ E1) as [Hn Hf]. split.
    + simpl. now rewrite Hn.
    + constructor; [| assumption]. apply mem_In, lookup_mem. now exists s.
Qed.

Lemma filter_NoDup {A : Type} (p : A -> bool) (l : list A) :
  NoDup l -> NoDup (List.filter p l).
Proof.
  induction 1 as [| x l Hx _ IH]; simpl; [constructor |].
  destruct (p x); [| assumption].
  constructor; [| assumption]. intros H. apply filter_In in H. tauto.
Qed.

Lemma derive_bound (so : SetOrder) (fuel : nat) (self : DataFrame) (m : Model)
    (columns : option (list string)) :
  df_model self = Some m ->
  DataFrame_derive so fuel self columns
  = (r <- derive_loop fuel m (to_derive_of so m columns) (lazy self) [] ;;
     collect (lf_select
                (map Col (out_cols_of so (columns_of m) (names (df_frame self))
                            (to_derive_of so m columns)))
                (fst r))).
Proof.
  intros Hm. unfold DataFrame_derive, derive. rewrite schema_names_lazy.
  unfold get_model. replace (lf_model (lazy self)) with (Some m) by (symmetry; exact Hm).
  cbn [bind].
  destruct (derive_loop fuel m (to_derive_of so m columns) (lazy self) []) as [[self' d] | |];
    reflexivity.
Qed.

(** C1, as the code has it. The table [derive] returns has, first, the
    schema fields found among the input columns and the requested columns,
    in declaration order; then the input columns that are not schema
    fields, each once, in the order in which the set of input and requested
    names yields them. *)
Theorem derive_column_order (so : SetOrder) (fuel : nat) (self out : DataFrame)
    (m : Model) (columns : option (list string)) :
  df_model self = Some m ->
  NoDup (names (df_frame self)) ->
  DataFrame_derive so fuel self columns = Ok out ->
  let original := names (df_frame self) in
  let union := original ++ to_derive_of so m columns in
  let tail := List.filter (fun x => negb (mem x (columns_of m))) (set_iter so union) in
  names (df_frame out) = List.filter (fun x => mem x union) (columns_of m) ++ tail
  /\ Permutation tail (List.filter (fun x => negb (mem x (columns_of m))) original).
Proof.
  intros Hm ND H original union tail. subst original.
  rewrite (derive_bound so fuel self m columns Hm) in H.
  bind_inv H. destruct a as [self' d]. rename E into Hloop. cbn [fst] in H.
  apply derive_loop_extends in Hloop. destruct Hloop as (Hsrc & _ & ops & Hplan & Hops).
  cbn [lazy lf_source lf_plan app] in Hsrc, Hplan.
  unfold collect in H. cbn [lf_select lf_plan lf_source lf_model] in H.
  rewrite Hsrc, Hplan, run_plan_app in H.
  apply bind_Ok in H. destruct H as (fr & Hfr & H). injection H as <-. cbn [df_frame].
  apply bind_Ok in Hfr. destruct Hfr as (f' & Hrun & Hsel).
  rewrite run_plan_cons in Hsel. apply bind_Ok in Hsel. destruct Hsel as (fr' & Hsel & E).
  injection E as <-. cbn [run_op] in Hsel.
  apply select_columns in Hsel. destruct Hsel as [Hnames Hpresent].
  assert (Htail : out_cols_of so (columns_of m) (names (df_frame self))
                    (to_derive_of so m columns)
                  = List.filter (fun x => mem x union) (columns_of m) ++ tail).
  { unfold out_cols_of. cbv zeta. fold union. f_equal. apply filter_ext_in.
    intros x Hx. apply set_iter_In in Hx. f_equal.
    destruct (mem x (columns_of m)) eqn:M.
    - apply mem_In, filter_In. split; [now apply mem_In | now apply mem_In].
    - apply mem_false. intros Hf. apply filter_In in Hf. destruct Hf as [Hf _].
      apply mem_In in Hf. congruence. }
  rewrite Htail in Hnames, Hpresent. split; [exact Hnames |].
  apply NoDup_Permutation.
  - apply filter_NoDup, set_iter_NoDup.
  - now apply filter_NoDup.
  - intros x. subst tail. rewrite !filter_In, set_iter_In. split.
    + intros [Hu Hx]. split; [| assumption].
      rewrite Forall_forall in Hpresent.
      assert (Hin : In x (names f')).
      { apply Hpresent, in_or_app. right. apply filter_In. split; [| assumption].
        now apply set_iter_In. }
      destruct (derive_ops_names _ _ _ _ _ Hops Hrun Hin) as [Ho | Hs]; [exact Ho |].
      apply mem_In in Hs. rewrite Hs in Hx. discriminate.
    + intros [Ho Hx]. split; [| assumption]. apply in_or_app. now left.
Qed.

Lemma derive_column_order_witness :
  names (df_frame single_out) = ["a"] ++ ["y"; "x"]
  /\ Permutation ["y"; "x"] ["x"; "y"].
Proof.
  refine (derive_column_order reverse_order 1 single_df single_out Single None
            eq_refl _ eq_refl).
  repeat (constructor; [simpl; intuition discriminate |]). constructor.
Defined.

(** C1, as stated, fails: with the input columns [a, x, y], of which only
    [a] is a schema field, and a set that yields its elements in reverse
    order, [derive()] returns the columns [a, y, x], not [a, x, y]. *)
Lemma derive_order_counterexample :
  DataFrame_derive reverse_order 1 single_df None = Ok single_out
  /\ names (df_frame single_out)
     <> claimed_order Single (names (df_frame single_df))
          (to_derive_of reverse_order Single None).
Proof.
  split; [reflexivity |]. intros H. vm_compute in H. congruence.
Qed.

(** The docstring of [derive]: [bar] and [double_bar] come first, [foo]
    last. *)
Example derive_docstring :
  DataFrame_derive insertion_order 2 (mkDataFrame [ ("foo", int_series [1; 2]%Z) ] (Some Foo))
    None
  = Ok (mkDataFrame [ ("bar", int_series [1; 2]); ("double_bar", int_series [2; 4]);
                      ("foo", int_series [1; 2]) ]%Z (Some Foo)).
Proof. reflexivity. Qed.

(** ** cast *)

Lemma cast_expr_decision (m : Model) (strict : bool) (targets : list string)
    (column : string) (current_dtype : DType) :
  cast_expr m strict targets (column, current_dtype)
  = coerce column (decision m strict targets column current_dtype).
Proof.
  unfold cast_expr, decision, policy.
  destruct (column_info m column) as [fi |] eqn:E.
  - assert (M : mem column (columns_of m) = true)
      by (apply column_info_Some; now exists fi).
    rewrite M. destruct (mem column targets); simpl; [| reflexivity].
    destruct (field_props_dtype fi); [reflexivity |].
    destruct (negb strict && dtype_in current_dtype (field_valid_dtypes fi)); reflexivity.
  - destruct (mem column (columns_of m)) eqn:M.
    + apply column_info_Some in M. destruct M as (fi & M). congruence.
    + rewrite orb_true_r. reflexivity.
Qed.

Lemma coerced_length (d : Coercion) (s s' : Series) :
  coerced d s s' -> List.length (values s') = List.length (values s).
Proof.
  destruct d as [| dt]; simpl.
  - now intros ->.
  - unfold cast_series. destruct (traverse (cast_value dt) (values s)) as [vs |] eqn:E;
      [| discriminate].
    intros H. injection H as <-. simpl. eapply traverse_length; eassumption.
Qed.

Lemma eval_coerce (f : Frame) (c c0 : string * Series) (d : Coercion) :
  NoDup (names f) -> In c f -> eval f (coerce (fst c) d) = Ok c0 ->
  fst c0 = fst c /\ coerced d (snd c) (snd c0).
Proof.
  intros ND Hin H. destruct c as [n s].
  pose proof (In_lookup n f s ND Hin) as Hl. cbn [fst snd] in *.
  destruct d as [| dt]; simpl in H; rewrite Hl in H; simpl in H.
  - injection H as <-. now split.
  - apply bind_Ok in H. destruct H as (s' & Hs' & H). injection H as <-. now split.
Qed.

Lemma fold_upsert_cons (c : string * Series) (cols f : Frame) :
  ~ In (fst c) (names cols) ->
  fold_left (fun acc d => upsert d acc) cols (c :: f)
  = c :: fold_left (fun acc d => upsert d acc) cols f.
Proof.
  revert f. induction cols as [| d cols IH]; intros f Hn; [reflexivity |].
  simpl. destruct c as [n s]. destruct (String.eqb (fst d) n) eqn:E.
  - exfalso. apply Hn. left. apply String.eqb_eq in E. now simpl.
  - apply IH. intros H. apply Hn. now right.
Qed.

Lemma fold_upsert_same_names (cols f : Frame) :
  NoDup (names f) -> names cols = names f ->
  fold_left (fun acc d => upsert d acc) cols f = cols.
Proof.
  revert cols. induction f as [| [n s] f IH]; intros cols ND Hn.
  - destruct cols; [reflexivity | discriminate].
  - destruct cols as [| [n' s'] cols]; [discriminate |].
    simpl in Hn. injection Hn as -> Hn. inversion ND as [| ? ? Hnot ND']; subst.
    simpl. rewrite String.eqb_refl. rewrite fold_upsert_cons.
    + now rewrite IH.
    + simpl. now rewrite Hn.
Qed.

Lemma coerced_names (d : string * Series -> Coercion) (l l' : Frame) :
  Forall2 (fun c c' => fst c' = fst c /\ coerced (d c) (snd c) (snd c')) l l' ->
  names l' = names l.
Proof.
  induction 1 as [| c c' l l' [Hc _] _ IH]; [reflexivity |].
  simpl. now rewrite Hc, IH.
Qed.

Lemma coerced_all_length (d : string * Series -> Coercion) (h : nat) (l l' : Frame) :
  all_length h l ->
  Forall2 (fun c c' => fst c' = fst c /\ coerced (d c) (snd c) (snd c')) l l' ->
  all_length h l'.
Proof.
  intros Hl H. induction H as [| c c' l l' [_ Hc] _ IH]; [constructor |].
  inversion Hl; subst. constructor; [| now apply IH].
  now rewrite (coerced_length _ _ _ Hc).
Qed.

(** [cast] queues one expression per column of the frame, in order, by
    [decision] on the columns the source takes as targeted; collected, the
    frame has the same columns in the same order, each one unchanged or
    cast accordingly. *)
Lemma cast_decision (strict : bool) (columns : option (list string))
    (self : LazyFrame) (m : Model) (f : Frame) :
  lf_model self = Some m ->
  run_plan (lf_plan self) (lf_source self) = Ok f ->
  let targets := target_columns columns (names f) in
  let decide (c : string * Series) :=
    decision m strict targets (fst c) (dtype (snd c)) in
  exists exprs,
    cast strict columns self = Ok (lf_with_columns exprs self)
    /\ exprs = map (fun c => coerce (fst c) (decide c)) f
    /\ forall out,
         NoDup (names f) -> rectangular f ->
         collect (lf_with_columns exprs self) = Ok out ->
         Forall2 (fun c c' => fst c' = fst c /\ coerced (decide c) (snd c) (snd c'))
           f (df_frame out).
Proof.
  intros Hm Hf targets decide.
  assert (Hsch : collect_schema self = Ok (map (fun c => (fst c, dtype (snd c))) f))
    by (unfold collect_schema; now rewrite Hf).
  assert (Hexprs : map (cast_expr m strict targets) (map (fun c => (fst c, dtype (snd c))) f)
                   = map (fun c => coerce (fst c) (decide c)) f).
  { rewrite map_map. apply map_ext. intros c. apply cast_expr_decision. }
  exists (map (fun c => coerce (fst c) (decide c)) f).
  split; [| split; [reflexivity |]].
  - assert (Hn : map fst (map (fun c : string * Series => (fst c, dtype (snd c))) f)
                 = names f) by (rewrite map_map; reflexivity).
    unfold cast, get_model. rewrite Hm. cbn [bind]. rewrite Hsch. cbn [bind].
    rewrite Hn. fold targets. now rewrite Hexprs.
  - intros out ND Hrect H. unfold collect in H.
    cbn [lf_with_columns lf_plan lf_source lf_model] in H.
    rewrite run_plan_app, Hf in H. cbn [bind] in H. rewrite run_plan_cons in H.
    apply bind_Ok in H. destruct H as (fr & H & E). injection E as <-. cbn [df_frame].
    apply bind_Ok in H. destruct H as (fr' & Hwc & E). injection E as <-.
    cbn [run_op] in Hwc. unfold with_columns in Hwc.
    apply bind_Ok in Hwc. destruct Hwc as (cols & Hcols & Hwc).
    apply bind_Ok in Hwc. destruct Hwc as (cols' & Hu & Hwc).
    apply check_unique_Ok in Hu. destruct Hu as [-> _].
    apply bind_Ok in Hwc. destruct Hwc as (fitted & Hfit & Hwc). injection Hwc as <-.
    assert (Hall : forall l cols,
               incl l f ->
               mapM (eval f) (map (fun c => coerce (fst c) (decide c)) l) = Ok cols ->
               Forall2 (fun c c' => fst c' = fst c /\ coerced (decide c) (snd c) (snd c'))
                 l cols).
    { induction l as [| c l IH]; intros cols1 Hincl Hm1; simpl in Hm1.
      - injection Hm1 as <-. constructor.
      - apply bind_Ok in Hm1. destruct Hm1 as (c0 & Hc0 & Hm1).
        apply bind_Ok in Hm1. destruct Hm1 as (rest & Hrest & Hm1). injection Hm1 as <-.
        constructor.
        + eapply eval_coerce; [exact ND | apply Hincl; now left | exact Hc0].
        + apply IH; [| exact Hrest]. intros x Hx. apply Hincl. now right. }
    specialize (Hall f cols (incl_refl f) Hcols).
    assert (Hnames : names cols = names f)
      by (eapply coerced_names; exact Hall).
    assert (Hlen : all_length (height f) cols)
      by (eapply coerced_all_length; [exact Hrect | exact Hall]).
    assert (Hfitted : fitted = cols).
    { destruct f as [| c0 f0].
      - destruct cols; [| discriminate]. simpl in Hfit. now injection Hfit as <-.
      - rewrite mapM_fit_same in Hfit by exact Hlen. now injection Hfit as <-. }
    subst fitted. rewrite fold_upsert_same_names by assumption. exact Hall.
Qed.

Lemma In_mem_names (f : Frame) (c : string * Series) :
  In c f -> mem (fst c) (names f) = true.
Proof.
  intros H. apply existsb_exists. exists (fst c). split.
  - now apply in_map.
  - apply String.eqb_refl.
Qed.

Lemma decision_claimed (m : Model) (strict : bool) (columns : option (list string))
    (f : Frame) (c : string * Series) :
  columns <> Some [] -> In c f ->
  decision m strict (target_columns columns (names f)) (fst c) (dtype (snd c))
  = claimed_coercion m strict columns (fst c) (dtype (snd c)).
Proof.
  intros Hne Hin. unfold decision, claimed_coercion.
  destruct (column_info m (fst c)); [| reflexivity].
  destruct columns as [[| x xs] |]; simpl; [congruence | reflexivity |].
  now rewrite In_mem_names.
Qed.

Lemma Forall2_impl_In {A B : Type} (P Q : A -> B -> Prop) (l : list A) (l' : list B) :
  (forall x y, In x l -> P x y -> Q x y) -> Forall2 P l l' -> Forall2 Q l l'.
Proof.
  intros H F. induction F as [| x y l l' Hxy _ IH]; constructor.
  - apply H; [now left | exact Hxy].
  - apply IH. intros x' y' Hx'. apply H. now right.
Qed.

(** C2. Given no list, or a list that is not empty, [cast] queues one expression per column of the frame, in order: for a
    column that is in the given list (any column when none is given) and is
    a field of the schema, a cast to the explicit dtype override when the
    field declares one, whatever [strict] is; else the column itself when
    [strict] is false and its current dtype is among the field's valid
    dtypes; else a cast to the field's default dtype; and the column itself
    for a column outside the given list or outside the schema. Collected,
    the frame has the same columns in the same order, each one unchanged or
    cast accordingly. Given the empty list, [cast] does what it does given
    no list: the columns [["apple"]] and [["8"]] of the docstring, none of
    them in the list, come back with ["8"] cast to the 16-bit unsigned
    [8]. *)
Theorem cast_given_columns :
  (forall (strict : bool) (columns : option (list string)) (self : LazyFrame)
          (m : Model) (f : Frame),
      lf_model self = Some m ->
      run_plan (lf_plan self) (lf_source self) = Ok f ->
      columns <> Some [] ->
      let claimed (c : string * Series) :=
        claimed_coercion m strict columns (fst c) (dtype (snd c)) in
      exists exprs,
        cast strict columns self = Ok (lf_with_columns exprs self)
        /\ exprs = map (fun c => coerce (fst c) (claimed c)) f
        /\ forall out,
             NoDup (names f) -> rectangular f ->
             collect (lf_with_columns exprs self) = Ok out ->
             Forall2 (fun c c' => fst c' = fst c /\ coerced (claimed c) (snd c) (snd c'))
               f (df_frame out))
  /\ (forall (strict : bool) (self : LazyFrame),
         cast strict (Some []) self = cast strict None self)
  /\ claimed_coercion Product false (Some []) "cent_price" Utf8 = Unchanged
  /\ DataFrame_cast false (Some []) product_df
     = Ok (mkDataFrame [ ("name", mkSeries Utf8 [VStr "apple"]);
                         ("cent_price", mkSeries UInt16 [VInt 8]) ] (Some Product)).
Proof.
  split; [| repeat split].
  intros strict columns self m f Hm Hf Hne claimed.
  destruct (cast_decision strict columns self m f Hm Hf) as (exprs & Hcast & Hexprs & Hout).
  assert (Hsame : map (fun c => coerce (fst c)
                                  (decision m strict (target_columns columns (names f))
                                     (fst c) (dtype (snd c)))) f
                  = map (fun c => coerce (fst c) (claimed c)) f).
  { apply map_ext_in. intros c Hc. unfold claimed.
    now rewrite (decision_claimed m strict columns f c Hne Hc). }
  exists exprs. split; [exact Hcast |]. split; [now rewrite Hexprs |].
  intros out ND Hrect Hcollect. specialize (Hout out ND Hrect Hcollect).
  eapply Forall2_impl_In; [| exact Hout].
  intros c c' Hc [Hn Hco]. split; [exact Hn |].
  unfold claimed. now rewrite <- (decision_claimed m strict columns f c Hne Hc).
Qed.

Lemma cast_given_columns_witness :
  exists exprs,
    cast false (Some ["name"]) (lazy product_df) = Ok (lf_with_columns exprs (lazy product_df))
    /\ exprs = [Col "name"; Col "cent_price"]
    /\ forall out,
         NoDup (names (df_frame product_df)) -> rectangular (df_frame product_df) ->
         collect (lf_with_columns exprs (lazy product_df)) = Ok out ->
         Forall2
           (fun c c' =>
              fst c' = fst c
              /\ coerced
                   (claimed_coercion Product false (Some ["name"]) (fst c) (dtype (snd c)))
                   (snd c) (snd c'))
           (df_frame product_df) (df_frame out).
Proof.
  refine (proj1 cast_given_columns false (Some ["name"]) (lazy product_df) Product
            (df_frame product_df) eq_refl eq_refl _).
  intros H. discriminate H.
Defined.

(** An empty column list targets every column, as an absent one does. *)
Lemma target_columns_empty (names : list string) :
  target_columns (Some []) names = names /\ target_columns None names = names.
Proof. split; reflexivity. Qed.

(** The docstring of [cast]: ["8"] becomes the 16-bit unsigned [8]. *)
Example cast_docstring :
  DataFrame_cast false None product_df
  = Ok (mkDataFrame [ ("name", mkSeries Utf8 [VStr "apple"]);
                      ("cent_price", mkSeries UInt16 [VInt 8]) ] (Some Product)).
Proof. reflexivity. Qed.

(** ** derive: termination *)

Lemma bind_returns {A B : Type} (c : Res A) (k : A -> Res B) :
  c <> OutOfFuel -> (forall a, k a <> OutOfFuel) -> bind c k <> OutOfFuel.
Proof.
  intros Hc Hk. destruct c as [a | e |]; simpl; [apply Hk | discriminate | congruence].
Qed.

Lemma mapM_returns {A B : Type} (g : A -> Res B) (l : list A) :
  (forall x, g x <> OutOfFuel) -> mapM g l <> OutOfFuel.
Proof.
  intros Hg. induction l as [| x l IH]; simpl; [discriminate |].
  apply bind_returns; [apply Hg |]. intros y.
  apply bind_returns; [exact IH |]. intros ys. discriminate.
Qed.

Lemma cast_series_returns (dt : DType) (s : Series) : cast_series dt s <> OutOfFuel.
Proof.
  unfold cast_series. destruct (traverse (cast_value dt) (values s)); discriminate.
Qed.

Lemma upcast_returns (dt : DType) (s : Series) : upcast dt s <> OutOfFuel.
Proof.
  unfold upcast. destruct (dtype_eqb (dtype s) dt); [discriminate | apply cast_series_returns].
Qed.

Lemma fill_null_series_returns (s v : Series) : fill_null_series s v <> OutOfFuel.
Proof.
  unfold fill_null_series. destruct (supertype (dtype s) (dtype v)); [| discriminate].
  apply bind_returns; [apply upcast_returns |]. intros s'.
  apply bind_returns; [apply upcast_returns |]. intros v'. discriminate.
Qed.

Lemma binary_returns (g : DType -> Value -> Value -> Value) (result : DType -> DType)
    (a b : Series) :
  binary g result a b <> OutOfFuel.
Proof.
  unfold binary. destruct (supertype (dtype a) (dtype b)); [| discriminate].
  apply bind_returns; [apply upcast_returns |]. intros a'.
  apply bind_returns; [apply upcast_returns |]. intros b'.
  cbv zeta. destruct (shape_ok _ (values a') && shape_ok _ (values b')); discriminate.
Qed.

Lemma arithmetic_returns (op : Z -> Z -> Z) (a b : Series) : arithmetic op a b <> OutOfFuel.
Proof.
  unfold arithmetic. destruct (supertype (dtype a) (dtype b)) as [st |]; [| discriminate].
  destruct (int_range st); [apply binary_returns | discriminate].
Qed.

Lemma add_returns (a b : Series) : add a b <> OutOfFuel.
Proof.
  unfold add. destruct (dtype a), (dtype b);
    first [apply binary_returns | apply arithmetic_returns].
Qed.

Lemma equal_returns (a b : Series) : equal a b <> OutOfFuel.
Proof.
  unfold equal. destruct (xorb _ _); [discriminate | apply binary_returns].
Qed.

Lemma eval_returns (f : Frame) (e : Expr) : eval f e <> OutOfFuel.
Proof.
  induction e; simpl;
    repeat (first
      [ discriminate
      | assumption
      | apply cast_series_returns
      | apply fill_null_series_returns
      | apply arithmetic_returns
      | apply add_returns
      | apply equal_returns
      | apply bind_returns
      | intros [? ?]
      | intros ? ]).
  - destruct (lookup name f); discriminate.
  - destruct (shape_ok _ _); [| discriminate].
    revert H. apply bind_returns; [apply fill_null_series_returns | discriminate].
Qed.

Lemma fit_returns (h : nat) (c : string * Series) : fit h c <> OutOfFuel.
Proof.
  unfold fit. destruct (_ =? h); [discriminate |]. destruct (_ =? 1); discriminate.
Qed.

Lemma check_unique_returns (cols : Frame) : check_unique cols <> OutOfFuel.
Proof. unfold check_unique. destruct (first_duplicate _); discriminate. Qed.

Lemma run_op_returns (op : Op) (f : Frame) : run_op op f <> OutOfFuel.
Proof.
  destruct op; simpl; unfold with_columns, select;
    (apply bind_returns; [apply mapM_returns, eval_returns |]; intros cols;
     apply bind_returns; [apply check_unique_returns |]; intros cols').
  - apply bind_returns; [apply mapM_returns, fit_returns | discriminate].
  - apply mapM_returns, fit_returns.
Qed.

Lemma run_plan_returns (plan : list Op) (f : Frame) : run_plan plan f <> OutOfFuel.
Proof.
  revert f. induction plan as [| op plan IH]; intros f; [discriminate |].
  rewrite run_plan_cons. apply bind_returns; [apply run_op_returns | exact IH].
Qed.

Lemma collect_returns (lf : LazyFrame) : collect lf <> OutOfFuel.
Proof.
  unfold collect. apply bind_returns; [apply run_plan_returns | discriminate].
Qed.

Lemma derive_roots_returns (rec : LazyFrame -> string -> Res (LazyFrame * list string))
    (root_cols : list string) :
  (forall r df, In r root_cols -> rec df r <> OutOfFuel) ->
  forall df acc, derive_roots rec root_cols df acc <> OutOfFuel.
Proof.
  induction root_cols as [| r rest IH]; intros Hrec df acc; simpl; [discriminate |].
  apply bind_returns; [apply Hrec; now left |]. intros [df' d].
  apply IH. intros r' df'' Hr'. apply Hrec. now right.
Qed.

Lemma derive_column_returns (m : Model) (rank : string -> nat) :
  acyclic m rank ->
  forall fuel df name, rank name < fuel -> _derive_column fuel m df name <> OutOfFuel.
Proof.
  intros Hacyclic. induction fuel as [| fuel IH]; intros df name Hlt; [lia |].
  simpl. destruct (column_info m name) as [info |] eqn:Hinfo; [| discriminate].
  apply column_info_name in Hinfo. destruct Hinfo as [Hname Hin].
  destruct (field_derived_from info) as [[source | e | ty] |] eqn:Hd; try discriminate.
  apply bind_returns; [| intros [df' d]; discriminate].
  apply derive_roots_returns. intros r df' Hr. apply IH.
  apply in_rev in Hr. specialize (Hacyclic info e r Hin Hd Hr). rewrite Hname in Hacyclic.
  lia.
Qed.

Lemma derive_loop_returns (m : Model) (fuel : nat) (to_derive : list string) :
  (forall name df, In name to_derive -> _derive_column fuel m df name <> OutOfFuel) ->
  forall self acc, derive_loop fuel m to_derive self acc <> OutOfFuel.
Proof.
  induction to_derive as [| c rest IH]; intros Hc self acc; simpl; [discriminate |].
  assert (Hrest : forall name df, In name rest -> _derive_column fuel m df name <> OutOfFuel)
    by (intros name df Hn; apply Hc; now right).
  destruct (mem c acc); [now apply IH |].
  apply bind_returns; [apply Hc; now left |]. intros [self' d]. now apply IH.
Qed.

(** X1. When the roots of the schema's derivation expressions are ordered
    by a rank (no cycle among them) and the recursion may go deeper than the
    rank of every requested column, [derive] comes back, with a table or
    with an error. *)
Theorem derive_terminates_acyclic (so : SetOrder) (fuel : nat) (self : DataFrame)
    (m : Model) (columns : option (list string)) (rank : string -> nat) :
  df_model self = Some m ->
  acyclic m rank ->
  (forall name, In name (to_derive_of so m columns) -> rank name < fuel) ->
  DataFrame_derive so fuel self columns <> OutOfFuel.
Proof.
  intros Hm Hacyclic Hfuel. rewrite (derive_bound so fuel self m columns Hm).
  apply bind_returns; [| intros r; apply collect_returns].
  apply derive_loop_returns. intros name df Hin.
  eapply derive_column_returns; [exact Hacyclic | now apply Hfuel].
Qed.

Lemma derive_terminates_acyclic_witness :
  DataFrame_derive insertion_order 3 chain_df None <> OutOfFuel.
Proof.
  refine (derive_terminates_acyclic insertion_order 3 chain_df Chain None chain_rank
            eq_refl _ _).
  - intros fi e r Hfi He Hr. simpl in Hfi.
    destruct Hfi as [<- | [<- | [<- | []]]]; simpl in He; try discriminate;
      injection He as <-; simpl in Hr; destruct Hr as [<- | []]; vm_compute; lia.
  - intros name Hin. simpl in Hin.
    destruct Hin as [<- | [<- | []]]; vm_compute; lia.
Defined.

(** ** derive: what happens to the columns *)

Lemma queued_refl (P : Op -> Prop) (df : LazyFrame) : queued P df df.
Proof.
  split; [reflexivity |]. split; [reflexivity |].
  exists []. split; [now rewrite app_nil_r | constructor].
Qed.

Lemma queued_trans (P : Op -> Prop) (a b c : LazyFrame) :
  queued P a b -> queued P b c -> queued P a c.
Proof.
  intros (S1 & M1 & ops1 & P1 & F1) (S2 & M2 & ops2 & P2 & F2).
  split; [congruence |]. split; [congruence |].
  exists (ops1 ++ ops2). split.
  - rewrite P2, P1, app_assoc. reflexivity.
  - apply Forall_app. now split.
Qed.

Lemma queued_one (P : Op -> Prop) (df : LazyFrame) (exprs : list Expr) :
  P (WithColumns exprs) -> queued P df (lf_with_columns exprs df).
Proof.
  intros H. split; [reflexivity |]. split; [reflexivity |].
  exists [WithColumns exprs]. split; [reflexivity | now constructor].
Qed.

Lemma derived_columns_In (m : Model) (name : string) (info : FieldInfo) (d : DerivedFrom) :
  column_info m name = Some info -> field_derived_from info = Some d ->
  In name (derived_columns m).
Proof.
  intros Hinfo Hd. apply column_info_name in Hinfo. destruct Hinfo as [<- Hin].
  unfold derived_columns. apply in_map, filter_In. split; [assumption |].
  now rewrite Hd.
Qed.

Lemma derive_roots_queued (P : Op -> Prop)
    (rec : LazyFrame -> string -> Res (LazyFrame * list string)) :
  (forall df name df' d, rec df name = Ok (df', d) -> queued P df df') ->
  forall root_cols df acc df' d,
    derive_roots rec root_cols df acc = Ok (df', d) -> queued P df df'.
Proof.
  intros Hrec. induction root_cols as [| r rest IH]; intros df acc df' d H; simpl in H.
  - injection H as <- _. apply queued_refl.
  - apply bind_Ok in H. destruct H as ([df1 d1] & E & H).
    eapply queued_trans; [eapply Hrec; eassumption | eapply IH; eassumption].
Qed.

Lemma derive_column_queued (m : Model) (fuel : nat) :
  forall df name df' d,
    _derive_column fuel m df name = Ok (df', d) -> queued (derivation m) df df'.
Proof.
  induction fuel as [| fuel IH]; intros df name df' d H; [discriminate |].
  simpl in H. destruct (column_info m name) as [info |] eqn:Hinfo;
    [| injection H as <- _; apply queued_refl].
  destruct (field_derived_from info) as [derived_from |] eqn:Hd;
    [| injection H as <- _; apply queued_refl].
  pose proof (derived_columns_In m name info derived_from Hinfo Hd) as Hin.
  destruct derived_from as [source | e | ty].
  - injection H as <- _. apply queued_one. now exists (Cast (Col source) (field_dtype info)), name.
  - apply bind_Ok in H. destruct H as ([df1 d1] & E & H). injection H as <- _.
    eapply queued_trans.
    + eapply derive_roots_queued; [exact IH | eassumption].
    + apply queued_one. now exists (Cast e (field_dtype info)), name.
  - discriminate.
Qed.

Lemma derive_loop_queued (m : Model) (fuel : nat) (to_derive : list string) :
  forall self acc self' d,
    derive_loop fuel m to_derive self acc = Ok (self', d) ->
    queued (derivation m) self self'.
Proof.
  induction to_derive as [| c rest IH]; intros self acc self' d H; simpl in H.
  - injection H as <- _. apply queued_refl.
  - destruct (mem c acc); [eapply IH; eassumption |].
    apply bind_Ok in H. destruct H as ([self1 d1] & E & H).
    eapply queued_trans; [eapply derive_column_queued | eapply IH]; eassumption.
Qed.

Lemma with_columns_one (e : Expr) (name : string) (f f' : Frame) :
  with_columns [Alias e name] f = Ok f' ->
  exists c s,
    eval f e = Ok c
    /\ fit (match f with [] => List.length (values (snd c)) | _ => height f end)
         (name, snd c) = Ok (name, s)
    /\ f' = upsert (name, s) f.
Proof.
  unfold with_columns. intros H.
  apply bind_Ok in H. destruct H as (cols & Hcols & H).
  cbn [mapM] in Hcols.
  apply bind_Ok in Hcols. destruct Hcols as (c0 & Hc0 & Hcols).
  cbn [bind] in Hcols. injection Hcols as <-.
  cbn [eval] in Hc0. apply bind_Ok in Hc0. destruct Hc0 as ([n s0] & He & Hc0).
  injection Hc0 as <-.
  apply bind_Ok in H. destruct H as (cols' & Hu & H).
  apply check_unique_Ok in Hu. destruct Hu as [-> _].
  apply bind_Ok in H. destruct H as (fitted & Hfit & H).
  cbn [mapM] in Hfit.
  apply bind_Ok in Hfit. destruct Hfit as ([n' s'] & Hc' & Hfit).
  cbn [bind] in Hfit. injection Hfit as <-.
  injection H as <-. cbn [fold_left].
  pose proof (fit_fst _ _ _ Hc') as Hn. simpl in Hn. subst n'.
  exists (n, s0), s'. split; [assumption |]. split; [| reflexivity].
  cbn [snd]. destruct f; [| exact Hc'].
  simpl in Hc'. now rewrite Nat.max_0_r in Hc'.
Qed.

Lemma derivation_step (m : Model) (op : Op) (h : nat) (f f' : Frame) :
  derivation m op -> f <> [] -> all_length h f -> run_op op f = Ok f' ->
  f' <> [] /\ all_length h f'
  /\ forall x, ~ In x (derived_columns m) -> lookup x f' = lookup x f.
Proof.
  intros (e & name & -> & Hin) Hne Hall H. simpl in H.
  apply with_columns_one in H. destruct H as (c & s & _ & Hfit & ->).
  split; [apply upsert_nonempty |]. split.
  - apply upsert_all_length; [| assumption].
    apply fit_length in Hfit. cbn [snd] in Hfit |- *.
    rewrite Hfit. destruct f; [congruence |]. now apply all_length_height.
  - intros x Hx. apply lookup_upsert_other. simpl. intros ->. contradiction.
Qed.

Lemma derivation_steps (m : Model) (ops : list Op) (h : nat) (f f' : Frame) :
  Forall (derivation m) ops -> f <> [] -> all_length h f -> run_plan ops f = Ok f' ->
  f' <> [] /\ all_length h f'
  /\ forall x, ~ In x (derived_columns m) -> lookup x f' = lookup x f.
Proof.
  intros Hops. revert f. induction Hops as [| op ops Hop _ IH]; intros f Hne Hall H.
  - injection H as <-. repeat split; assumption || reflexivity.
  - rewrite run_plan_cons in H. apply bind_Ok in H. destruct H as (f1 & H1 & H).
    destruct (derivation_step m op h f f1 Hop Hne Hall H1) as (Hne1 & Hall1 & Hl1).
    destruct (IH f1 Hne1 Hall1 H) as (Hne' & Hall' & Hl').
    repeat split; try assumption. intros x Hx. now rewrite Hl', Hl1.
Qed.

Lemma select_lookup (l : list string) (f out : Frame) (x : string) :
  rectangular f -> select (map Col l) f = Ok out -> In x l ->
  lookup x out = lookup x f.
Proof.
  intros Hrect H Hin. apply select_column_exprs in H; [| assumption |].
  - destruct H as [Hm ND].
    destruct (mapM_In _ _ _ (Col x) Hm (in_map Col _ _ Hin)) as (c & Hc & Hcin).
    simpl in Hc. destruct (lookup x f) as [s |]; [| discriminate].
    injection Hc as <-. now apply In_lookup.
  - apply Forall_forall. intros e He. apply in_map_iff in He.
    destruct He as (y & <- & _). constructor.
Qed.

Lemma select_NoDup (exprs : list Expr) (f out : Frame) :
  select exprs f = Ok out -> NoDup (names out).
Proof.
  unfold select. intros H. apply bind_Ok in H. destruct H as (cols & _ & H).
  apply bind_Ok in H. destruct H as (cols' & Hu & H).
  apply check_unique_Ok in Hu. destruct Hu as [-> ND].
  apply mapM_fit_names in H. now rewrite H.
Qed.

Lemma out_cols_In (so : SetOrder) (props original_columns to_derive : list string)
    (x : string) :
  In x (out_cols_of so props original_columns to_derive)
  <-> In x (original_columns ++ to_derive).
Proof.
  unfold out_cols_of. cbv zeta. rewrite in_app_iff, !filter_In, set_iter_In.
  rewrite negb_true_iff, mem_false, mem_In, filter_In, mem_In.
  split; [tauto |]. intros Hu.
  destruct (mem x props) eqn:M.
  - apply mem_In in M. tauto.
  - apply mem_false in M. tauto.
Qed.

(** How a call of [derive] on a bound frame runs: the derivations, then the
    selection of the output columns. *)
Lemma derive_run (so : SetOrder) (fuel : nat) (self out : DataFrame) (m : Model)
    (columns : option (list string)) :
  df_model self = Some m ->
  DataFrame_derive so fuel self columns = Ok out ->
  exists ops f',
    Forall (derivation m) ops
    /\ run_plan ops (df_frame self) = Ok f'
    /\ select (map Col (out_cols_of so (columns_of m) (names (df_frame self))
                          (to_derive_of so m columns))) f'
       = Ok (df_frame out)
    /\ df_model out = df_model self.
Proof.
  intros Hm H. rewrite (derive_bound so fuel self m columns Hm) in H.
  apply bind_Ok in H. destruct H as ([self' d] & Hloop & H). cbn [fst] in H.
  apply derive_loop_queued in Hloop. destruct Hloop as (Hsrc & Hmod & ops & Hplan & Hops).
  cbn [lazy lf_source lf_plan lf_model app] in Hsrc, Hplan, Hmod.
  unfold collect in H. cbn [lf_select lf_plan lf_source lf_model] in H.
  rewrite Hsrc, Hplan, Hmod, run_plan_app in H.
  apply bind_Ok in H. destruct H as (fr & Hfr & H). injection H as <-. cbn [df_frame df_model].
  apply bind_Ok in Hfr. destruct Hfr as (f' & Hrun & Hsel).
  rewrite run_plan_cons in Hsel. apply bind_Ok in Hsel. destruct Hsel as (fr' & Hsel & E).
  injection E as <-. cbn [run_op] in Hsel.
  exists ops, f'. repeat split; assumption.
Qed.

(** X3. [derive] leaves alone what it does not derive: a column of the
    input that is not one of the schema's derived columns is in the result
    with the values and the dtype it had. *)
Theorem derive_keeps_other_columns (so : SetOrder) (fuel : nat) (self out : DataFrame)
    (m : Model) (columns : option (list string)) (x : string) (s : Series) :
  df_model self = Some m ->
  rectangular (df_frame self) ->
  DataFrame_derive so fuel self columns = Ok out ->
  lookup x (df_frame self) = Some s ->
  ~ In x (derived_columns m) ->
  lookup x (df_frame out) = Some s.
Proof.
  intros Hm Hrect H Hx Hnd.
  destruct (derive_run so fuel self out m columns Hm H) as (ops & f' & Hops & Hrun & Hsel & _).
  assert (Hne : df_frame self <> []) by (intros E; rewrite E in Hx; discriminate).
  destruct (derivation_steps m ops _ _ f' Hops Hne Hrect Hrun) as (Hne' & Hall' & Hl').
  assert (Hrect' : rectangular f')
    by (unfold rectangular; now rewrite (all_length_height _ _ Hall' Hne')).
  assert (Hin : In x (out_cols_of so (columns_of m) (names (df_frame self))
                        (to_derive_of so m columns))).
  { apply out_cols_In, in_or_app. left. apply mem_In, lookup_mem. now exists s. }
  rewrite (select_lookup _ f' (df_frame out) x Hrect' Hsel Hin).
  now rewrite Hl'.
Qed.

Lemma derive_keeps_other_columns_witness :
  lookup "x" (df_frame stale_once) = Some (int_series [1]%Z).
Proof.
  refine (derive_keeps_other_columns insertion_order 2 stale_df stale_once Stale
            (Some ["b"; "a"]) "x" (int_series [1]%Z) eq_refl _ eq_refl eq_refl _).
  - repeat constructor.
  - simpl. intuition discriminate.
Defined.

(** X4. The table [derive] returns has every input column and every
    requested column, each once, and nothing else; it keeps the bound
    model. *)
Theorem derive_column_set (so : SetOrder) (fuel : nat) (self out : DataFrame)
    (m : Model) (columns : option (list string)) :
  df_model self = Some m ->
  DataFrame_derive so fuel self columns = Ok out ->
  NoDup (names (df_frame out))
  /\ (forall x,
        In x (names (df_frame out))
        <-> In x (names (df_frame self)) \/ In x (to_derive_of so m columns))
  /\ df_model out = Some m.
Proof.
  intros Hm H.
  destruct (derive_run so fuel self out m columns Hm H) as (ops & f' & _ & _ & Hsel & Hmod).
  split; [eapply select_NoDup; exact Hsel |]. split; [| congruence].
  intros x. apply select_columns in Hsel. destruct Hsel as [-> _].
  rewrite out_cols_In. apply in_app_iff.
Qed.

Lemma derive_column_set_witness :
  NoDup (names (df_frame foo_out))
  /\ (forall x,
        In x (names (df_frame foo_out))
        <-> In x (names (df_frame foo_df)) \/ In x ["bar"; "double_bar"])
  /\ df_model foo_out = Some Foo.
Proof.
  exact (derive_column_set insertion_order 2 foo_df foo_out Foo None eq_refl eq_refl).
Defined.

(** X5. For a field derived from a column name, [derive] asked for that
    field alone gives it the source column cast to the field's dtype. *)
Theorem derive_string_casts_source (so : SetOrder) (fuel : nat) (self out : DataFrame)
    (m : Model) (name source : string) (fi : FieldInfo) (s : Series) :
  df_model self = Some m ->
  rectangular (df_frame self) ->
  column_info m name = Some fi ->
  field_derived_from fi = Some (DerivedStr source) ->
  lookup source (df_frame self) = Some s ->
  DataFrame_derive so (S fuel) self (Some [name]) = Ok out ->
  exists s',
    cast_series (field_dtype fi) s = Ok s'
    /\ lookup name (df_frame out) = Some s'.
Proof.
  intros Hm Hrect Hfi Hd Hs H.
  rewrite (derive_bound so (S fuel) self m (Some [name]) Hm) in H.
  cbn [to_derive_of derive_loop mem existsb _derive_column] in H.
  rewrite Hfi, Hd in H. cbn [bind fst derive_loop] in H.
  unfold collect in H. cbn [lf_select lf_with_columns lazy lf_plan lf_source lf_model app] in H.
  apply bind_Ok in H. destruct H as (fr & Hrun & H). injection H as <-. cbn [df_frame].
  cbn [List.app] in Hrun.
  rewrite run_plan_cons in Hrun. apply bind_Ok in Hrun. destruct Hrun as (f1 & Hwc & Hrun).
  rewrite run_plan_cons in Hrun. apply bind_Ok in Hrun. destruct Hrun as (fr' & Hsel & E).
  injection E as <-. cbn [run_op] in Hwc, Hsel.
  apply with_columns_one in Hwc. destruct Hwc as (c & s1 & Hc & Hfit & ->).
  simpl in Hc. rewrite Hs in Hc. simpl in Hc.
  apply bind_Ok in Hc. destruct Hc as (s' & Hs' & Hc). injection Hc as <-.
  assert (Hne : df_frame self <> []) by (intros E; rewrite E in Hs; discriminate).
  assert (Hlen : List.length (values s') = height (df_frame self)).
  { rewrite (coerced_length (CastTo (field_dtype fi)) s s' Hs').
    apply lookup_In in Hs. unfold rectangular, all_length in Hrect.
    rewrite Forall_forall in Hrect. exact (Hrect _ Hs). }
  cbn [snd] in Hfit.
  assert (Hh : match df_frame self with
               | [] => List.length (values s')
               | _ :: _ => height (df_frame self)
               end = height (df_frame self))
    by (destruct (df_frame self); [congruence | reflexivity]).
  rewrite Hh, fit_same in Hfit by exact Hlen. injection Hfit as <-.
  exists s'. split; [exact Hs' |].
  assert (Hrect1 : rectangular (upsert (name, s') (df_frame self))).
  { unfold rectangular.
    assert (Hall : all_length (height (df_frame self)) (upsert (name, s') (df_frame self)))
      by (now apply upsert_all_length).
    now rewrite (all_length_height _ _ Hall (upsert_nonempty _ _)). }
  rewrite (select_lookup _ _ _ name Hrect1 Hsel).
  - apply (lookup_upsert_same (name, s')).
  - apply out_cols_In, in_or_app. right. now left.
Qed.

Lemma derive_string_casts_source_witness :
  exists s',
    cast_series Int64 (int_series [1; 2]%Z) = Ok s'
    /\ lookup "bar" (df_frame foo_bar) = Some s'.
Proof.
  refine (derive_string_casts_source insertion_order 0 foo_df foo_bar Foo "bar" "foo"
            (derived_field "bar" Int64 (DerivedStr "foo")) (int_series [1; 2]%Z)
            eq_refl _ eq_refl eq_refl eq_refl eq_refl).
  repeat constructor.
Defined.

(** ** drop *)

Lemma find_all_false {A : Type} (p : A -> bool) (l : list A) :
  (forall x, In x l -> p x = false) -> find p l = None.
Proof.
  induction l as [| a l IH]; intros H; [reflexivity |].
  simpl. rewrite (H a (or_introl eq_refl)). apply IH. intros x Hx. apply H. now right.
Qed.

Lemma frame_drop_present (columns : list string) (f : Frame) :
  (forall c, In c columns -> In c (names f)) ->
  frame_drop columns f = Ok (List.filter (fun c => negb (mem (fst c) columns)) f).
Proof.
  intros H. unfold frame_drop. rewrite find_all_false; [reflexivity |].
  intros c Hc. apply negb_false_iff, mem_In. now apply H.
Qed.

Lemma filter_twice {A : Type} (p : A -> bool) (l : list A) :
  List.filter p (List.filter p l) = List.filter p l.
Proof.
  induction l as [| a l IH]; [reflexivity |]. simpl.
  destruct (p a) eqn:E; [| exact IH]. simpl. now rewrite E, IH.
Qed.

(** X6. [drop()] without columns keeps exactly the columns of the frame
    that are columns of the schema, in the frame's order and as they are,
    whatever order the set difference is listed in; it never fails on a
    bound frame, and dropping again changes nothing. *)
Theorem drop_keeps_schema_columns (so : SetOrder) (more_columns : list string)
    (self : DataFrame) (m : Model) :
  df_model self = Some m ->
  let kept :=
    mkDataFrame (List.filter (fun c => mem (fst c) (columns_of m)) (df_frame self))
      (Some m) in
  DataFrame_drop so None more_columns self = Ok kept
  /\ DataFrame_drop so None more_columns kept = Ok kept.
Proof.
  assert (Hdrop : forall df : DataFrame,
             df_model df = Some m ->
             DataFrame_drop so None more_columns df
             = Ok (mkDataFrame
                     (List.filter (fun c => mem (fst c) (columns_of m)) (df_frame df))
                     (Some m))).
  { intros df Hm. unfold DataFrame_drop. rewrite Hm. cbn [bind].
    rewrite frame_drop_present.
    - cbn [bind]. f_equal. f_equal. apply filter_ext_in. intros c Hc.
      destruct (mem (fst c) (columns_of m)) eqn:M.
      + apply negb_true_iff, mem_false. intros H.
        apply set_iter_In, filter_In in H. destruct H as [_ H]. now rewrite M in H.
      + apply negb_false_iff, mem_In, set_iter_In, filter_In. split.
        * apply set_iter_In. now apply in_map.
        * now rewrite M.
    - intros c Hc. apply set_iter_In, filter_In in Hc. destruct Hc as [Hc _].
      now apply set_iter_In in Hc. }
  intros Hm kept. split; [now apply Hdrop |].
  rewrite (Hdrop kept eq_refl). subst kept. cbn [df_frame]. now rewrite filter_twice.
Qed.

Lemma drop_keeps_schema_columns_witness :
  DataFrame_drop reverse_order None [] single_df
  = Ok (mkDataFrame [ ("a", int_series [1]%Z) ] (Some Single))
  /\ DataFrame_drop reverse_order None [] (mkDataFrame [ ("a", int_series [1]%Z) ] (Some Single))
     = Ok (mkDataFrame [ ("a", int_series [1]%Z) ] (Some Single)).
Proof.
  exact (drop_keeps_schema_columns reverse_order [] single_df Single eq_refl).
Defined.

(** ** unalias: alias paths that are not taken *)

Lemma choices_loop_unsupported (rec : ValidationAlias -> Res (option Expr))
    (choices : list ValidationAlias) :
  Forall (fun c => if unsupported c
                   then exists e, path_not_taken e /\ rec c = Raise e
                   else exists r, rec c = Ok r)
    choices ->
  forall acc,
    if existsb unsupported choices
    then exists e, path_not_taken e /\ choices_loop rec choices acc = Raise e
    else exists r, choices_loop rec choices acc = Ok r.
Proof.
  induction 1 as [| c cs Hc _ IH]; intros acc; simpl; [eauto |].
  destruct (unsupported c); simpl.
  - destruct Hc as (e & He & ->). now exists e.
  - destruct Hc as (r & ->). simpl. destruct r; apply IH.
Qed.

Lemma to_expr_unsupported (names : list string) (va : ValidationAlias) :
  if unsupported va
  then exists e, path_not_taken e /\ to_expr (Ok names) va = Raise e
  else exists r, to_expr (Ok names) va = Ok r.
Proof.
  induction va as [name | first rest | choices IH] using ValidationAlias_nested_ind.
  - simpl. eauto.
  - simpl.
    destruct rest as [| [s | index] [| ? ?]];
      try (eexists; split; [| reflexivity]; exists first; eexists;
           split; [| reflexivity]; intros index' H'; discriminate H').
    eauto.
  - simpl. now apply choices_loop_unsupported.
Qed.

Lemma unalias_field_unsupported (names : list string) (fi : FieldInfo) :
  if unsupported_field fi
  then exists e, path_not_taken e /\ unalias_field (Ok names) fi = Raise e
  else exists this, unalias_field (Ok names) fi = Ok this.
Proof.
  unfold unsupported_field, unalias_field.
  destruct (field_validation_alias fi) as [va |]; [| eauto].
  pose proof (to_expr_unsupported names va) as H.
  destruct (unsupported va).
  - destruct H as (e & He & ->). now exists e.
  - destruct H as (r & ->). simpl. destruct (mem (field_name fi) names); eauto.
Qed.

Lemma unalias_exprs_unsupported (names : list string) (fields : list FieldInfo) :
  if existsb unsupported_field fields
  then exists e, path_not_taken e /\ unalias_exprs (Ok names) fields = Raise e
  else exists exprs, unalias_exprs (Ok names) fields = Ok exprs.
Proof.
  induction fields as [| g fields IH]; simpl; [eauto |].
  pose proof (unalias_field_unsupported names g) as Hg.
  destruct (unsupported_field g); simpl.
  - destruct Hg as (e & He & ->). now exists e.
  - destruct Hg as (this & ->). simpl. destruct (existsb unsupported_field fields).
    + destruct IH as (e & He & ->). now exists e.
    + destruct IH as (more & ->). simpl. eauto.
Qed.

Lemma unsupported_truthy (fi : FieldInfo) :
  unsupported_field fi = true -> alias_truthy (field_validation_alias fi) = true.
Proof.
  unfold unsupported_field.
  destruct (field_validation_alias fi) as [[name | first rest | choices] |];
    simpl; intros H; congruence.
Qed.

(** X7. Building the plan of [unalias] fails exactly when the alias of
    some field is, or has among its choices, an [AliasPath] that is not a
    column name followed by one integer: then [unalias] raises the
    [NotImplementedError] of such a path, whatever the table holds and
    before the engine is asked for anything; otherwise it returns a plan. *)
Theorem unalias_unsupported_path (self : DataFrame) (m : Model) :
  df_model self = Some m ->
  if existsb unsupported_field (model_fields m)
  then exists (first : string) (rest : list PathItem),
         (forall index, rest <> [PathInt index])
         /\ unalias (lazy self)
            = Raise (NotImplementedError "TODO figure out how this AliasPath behaves"
                       first rest)
         /\ DataFrame_unalias self
            = Raise (NotImplementedError "TODO figure out how this AliasPath behaves"
                       first rest)
  else exists lf, unalias (lazy self) = Ok lf.
Proof.
  intros Hm.
  assert (Hun : unalias (lazy self)
                = if negb (existsb (fun fi => alias_truthy (field_validation_alias fi))
                             (model_fields m))
                  then Ok (lazy self)
                  else exprs <- unalias_exprs (Ok (names (df_frame self))) (model_fields m) ;;
                       Ok (lf_select exprs (lazy self))).
  { unfold unalias, get_model. rewrite schema_names_lazy.
    replace (lf_model (lazy self)) with (Some m) by (symmetry; exact Hm). reflexivity. }
  pose proof (unalias_exprs_unsupported (names (df_frame self)) (model_fields m)) as Hex.
  destruct (existsb unsupported_field (model_fields m)) eqn:U.
  - assert (G : existsb (fun fi => alias_truthy (field_validation_alias fi)) (model_fields m)
                = true).
    { apply existsb_exists in U. destruct U as (fi & Hin & Hfi).
      apply existsb_exists. exists fi. split; [assumption | now apply unsupported_truthy]. }
    destruct Hex as (e & (first & rest & Hrest & ->) & Hex).
    rewrite G, Hex in Hun. cbn [negb bind] in Hun.
    exists first, rest. split; [assumption |].
    split; [exact Hun |]. unfold DataFrame_unalias. now rewrite Hun.
  - rewrite Hun. destruct (negb _); [eauto |].
    destruct Hex as (exprs & ->). simpl. eauto.
Qed.

Lemma unalias_unsupported_path_witness :
  exists (first : string) (rest : list PathItem),
    (forall index, rest <> [PathInt index])
    /\ unalias (lazy deep_df)
       = Raise (NotImplementedError "TODO figure out how this AliasPath behaves" first rest)
    /\ DataFrame_unalias deep_df
       = Raise (NotImplementedError "TODO figure out how this AliasPath behaves" first rest).
Proof.
  exact (unalias_unsupported_path deep_df Deep eq_refl).
Defined.

(** The path the error of [deep_df] carries. *)
Example unalias_deep_path :
  DataFrame_unalias deep_df
  = Raise (NotImplementedError "TODO figure out how this AliasPath behaves"
             "d" [PathInt 0; PathInt 1]).
Proof. reflexivity. Qed.

(** ** unalias: the columns of the result *)

Lemma mapM_app {A B : Type} (g : A -> Res B) (l1 l2 : list A) (out : list B) :
  mapM g (l1 ++ l2) = Ok out ->
  exists o1 o2, out = o1 ++ o2 /\ mapM g l1 = Ok o1 /\ mapM g l2 = Ok o2.
Proof.
  revert out. induction l1 as [| x l1 IH]; intros out H; simpl in H.
  - exists [], out. repeat split. exact H.
  - apply bind_Ok in H. destruct H as (y & Hy & H).
    apply bind_Ok in H. destruct H as (ys & Hys & H). injection H as <-.
    destruct (IH _ Hys) as (o1 & o2 & -> & H1 & H2).
    exists (y :: o1), o2. repeat split; [| exact H2].
    simpl. now rewrite Hy, H1.
Qed.

Lemma eval_fill_name (f : Frame) (name : string) (e : Expr) (c : string * Series) :
  eval f (FillNull (Col name) e) = Ok c -> fst c = name.
Proof.
  simpl. destruct (lookup name f); [| discriminate]. simpl. intros H.
  apply bind_Ok in H. destruct H as ([n sv] & _ & H).
  destruct (shape_ok _ _); [| discriminate].
  apply bind_Ok in H. destruct H as (r & _ & H). now injection H as <-.
Qed.

Lemma unalias_field_names (f : Frame) (fi : FieldInfo) (this : list Expr) (cols : Frame) :
  unalias_field (Ok (names f)) fi = Ok this ->
  mapM (eval f) this = Ok cols ->
  names cols = if has_source (names f) fi then [field_name fi] else [].
Proof.
  unfold unalias_field, has_source.
  destruct (field_validation_alias fi) as [va |].
  - intros H Hc. apply bind_Ok in H. destruct H as (expr & He & H). rewrite He.
    simpl in H. destruct (mem (field_name fi) (names f)); simpl.
    + injection H as <-. simpl in Hc.
      apply bind_Ok in Hc. destruct Hc as (c & Hc & H). injection H as <-. simpl. f_equal.
      destruct expr as [e |].
      * eapply eval_fill_name; eassumption.
      * simpl in Hc. destruct (lookup (field_name fi) f); [| discriminate].
        now injection Hc as <-.
    + destruct expr as [e |]; injection H as <-; simpl in Hc.
      * apply bind_Ok in Hc. destruct Hc as (c & Hc & H). injection H as <-.
        apply bind_Ok in Hc. destruct Hc as ([n s] & _ & Hc). now injection Hc as <-.
      * now injection Hc as <-.
  - intros H Hc. injection H as <-. simpl in Hc.
    destruct (lookup (field_name fi) f); [| discriminate]. simpl in Hc. now injection Hc as <-.
Qed.

Lemma unalias_exprs_names (f : Frame) (fields : list FieldInfo) (exprs : list Expr)
    (cols : Frame) :
  unalias_exprs (Ok (names f)) fields = Ok exprs ->
  mapM (eval f) exprs = Ok cols ->
  names cols = map field_name (List.filter (has_source (names f)) fields).
Proof.
  revert exprs cols. induction fields as [| fi fields IH]; intros exprs cols H Hc; simpl in H.
  - injection H as <-. simpl in Hc. now injection Hc as <-.
  - apply bind_Ok in H. destruct H as (this & Hthis & H).
    apply bind_Ok in H. destruct H as (more & Hmore & H). injection H as <-.
    apply mapM_app in Hc. destruct Hc as (o1 & o2 & -> & H1 & H2).
    assert (Happ : names (o1 ++ o2) = names o1 ++ names o2) by apply map_app.
    rewrite Happ, (unalias_field_names f fi this o1 Hthis H1), (IH more o2 Hmore H2).
    simpl. destruct (has_source (names f) fi); reflexivity.
Qed.

(** X8. On a schema without any alias [unalias] returns the frame as it
    is. On a schema with an alias, the table it returns has one column per
    schema field that has no alias, or whose canonical column is in the
    input, or whose alias resolves, under the field's name and in
    declaration order; every other column of the input is left out. *)
Theorem unalias_columns (self : DataFrame) (m : Model) :
  df_model self = Some m ->
  if existsb (fun fi => alias_truthy (field_validation_alias fi)) (model_fields m)
  then forall out,
         DataFrame_unalias self = Ok out ->
         names (df_frame out)
         = map field_name
             (List.filter (has_source (names (df_frame self))) (model_fields m))
  else DataFrame_unalias self = Ok self.
Proof.
  intros Hm.
  assert (Hun : unalias (lazy self)
                = if negb (existsb (fun fi => alias_truthy (field_validation_alias fi))
                             (model_fields m))
                  then Ok (lazy self)
                  else exprs <- unalias_exprs (Ok (names (df_frame self))) (model_fields m) ;;
                       Ok (lf_select exprs (lazy self))).
  { unfold unalias, get_model. rewrite schema_names_lazy.
    replace (lf_model (lazy self)) with (Some m) by (symmetry; exact Hm). reflexivity. }
  unfold DataFrame_unalias. rewrite Hun.
  destruct (existsb _ (model_fields m)); cbn [negb].
  - intros out H. apply bind_Ok in H. destruct H as (lf & Hlf & H).
    apply bind_Ok in Hlf. destruct Hlf as (exprs & Hexprs & Hlf). injection Hlf as <-.
    unfold collect in H. cbn [lf_select lazy lf_plan lf_source lf_model List.app] in H.
    rewrite run_plan_cons in H. cbn [run_op] in H.
    apply bind_Ok in H. destruct H as (fr & H & E). injection E as <-. cbn [df_frame].
    apply bind_Ok in H. destruct H as (fr' & Hsel & E). injection E as <-.
    unfold select in Hsel.
    apply bind_Ok in Hsel. destruct Hsel as (cols & Hcols & Hsel).
    apply bind_Ok in Hsel. destruct Hsel as (cols' & Hu & Hsel).
    apply check_unique_Ok in Hu. destruct Hu as [-> _].
    apply mapM_fit_names in Hsel. rewrite Hsel.
    eapply unalias_exprs_names; eassumption.
  - cbn [bind]. unfold collect, lazy. destruct self as [f model]. reflexivity.
Qed.

Lemma unalias_columns_witness : names (df_frame partial_out) = ["a"; "b"].
Proof.
  exact (unalias_columns partial_df Partial eq_refl partial_out eq_refl).
Defined.

(** ** cast: a frame that already conforms *)

Lemma NoDup_first_duplicate (l : list string) : NoDup l -> first_duplicate l = None.
Proof.
  induction 1 as [| x l Hx _ IH]; [reflexivity |].
  simpl. apply mem_false in Hx. now rewrite Hx.
Qed.

Lemma with_columns_identity (f : Frame) :
  NoDup (names f) -> rectangular f ->
  with_columns (map (fun c => Col (fst c)) f) f = Ok f.
Proof.
  intros ND Hrect. unfold with_columns.
  assert (Hm : forall l, incl l f -> mapM (eval f) (map (fun c => Col (fst c)) l) = Ok l).
  { induction l as [| [n s] l IH]; intros Hincl; [reflexivity |].
    simpl. rewrite (In_lookup n f s ND) by (apply Hincl; now left). simpl.
    rewrite IH by (intros x Hx; apply Hincl; now right). reflexivity. }
  rewrite (Hm f (incl_refl f)). cbn [bind].
  unfold check_unique. rewrite (NoDup_first_duplicate _ ND). cbn [bind].
  destruct f as [| c0 f0] eqn:Ef; [reflexivity |]. rewrite <- Ef in *.
  replace (match f with [] => max_length f | _ :: _ => height f end) with (height f)
    by (rewrite Ef; reflexivity).
  rewrite mapM_fit_same by exact Hrect. cbn [bind].
  now rewrite fold_upsert_same_names.
Qed.

(** X9. A non-strict [cast] gives back the frame as it is when none of its
    columns is a field with an explicit dtype and every column that is a
    field has a dtype the field accepts, whichever columns are named. *)
Theorem cast_conforming_is_identity (columns : option (list string)) (self : DataFrame)
    (m : Model) :
  df_model self = Some m ->
  NoDup (names (df_frame self)) ->
  rectangular (df_frame self) ->
  (forall c fi,
      In c (df_frame self) ->
      column_info m (fst c) = Some fi ->
      field_props_dtype fi = None
      /\ dtype_in (dtype (snd c)) (field_valid_dtypes fi) = true) ->
  DataFrame_cast false columns self = Ok self.
Proof.
  intros Hm ND Hrect Hok. unfold DataFrame_cast, cast, get_model.
  replace (lf_model (lazy self)) with (Some m) by (symmetry; exact Hm). cbn [bind].
  unfold collect_schema. cbn [lazy lf_plan lf_source run_plan fold_left bind].
  assert (Hexprs : forall targets,
             map (cast_expr m false targets)
               (map (fun c => (fst c, dtype (snd c))) (df_frame self))
             = map (fun c => Col (fst c)) (df_frame self)).
  { intros targets. rewrite map_map. apply map_ext_in. intros c Hc.
    rewrite cast_expr_decision. unfold decision, policy.
    destruct (column_info m (fst c)) as [fi |] eqn:Hfi; [| reflexivity].
    destruct (Hok c fi Hc Hfi) as [-> ->].
    destruct (mem (fst c) targets); reflexivity. }
  rewrite Hexprs. cbn [bind]. unfold collect.
  cbn [lf_with_columns lazy lf_plan lf_source lf_model List.app].
  rewrite run_plan_cons. cbn [run_op].
  rewrite (with_columns_identity _ ND Hrect). simpl.
  destruct self as [f model]. simpl in *. now rewrite Hm.
Qed.

Lemma cast_conforming_is_identity_witness :
  DataFrame_cast false (Some ["count"]) plain_df = Ok plain_df.
Proof.
  refine (cast_conforming_is_identity (Some ["count"]) plain_df Plain eq_refl _ _ _).
  - repeat (constructor; [simpl; intuition discriminate |]). constructor.
  - repeat constructor.
  - intros c fi Hc Hfi. simpl in Hc.
    destruct Hc as [<- | [<- | [<- | []]]]; simpl in Hfi;
      try discriminate; injection Hfi as <-; split; reflexivity.
Defined.

(** ** fill_null: the other columns *)

Lemma names_upsert_eq (c : string * Series) (f : Frame) :
  names (upsert c f) = names_after (names f) [fst c].
Proof.
  unfold names_after. destruct c as [n s]. cbn [fst].
  induction f as [| [n' s'] f IH]; [reflexivity |].
  simpl. rewrite String.eqb_sym. destruct (String.eqb n' n) eqn:E; simpl.
  - now rewrite app_nil_r.
  - rewrite IH. simpl. reflexivity.
Qed.

Lemma names_fold_upsert (cols f : Frame) :
  NoDup (names cols) ->
  names (fold_left (fun acc c => upsert c acc) cols f) = names_after (names f) (names cols).
Proof.
  revert f. induction cols as [| c cols IH]; intros f ND.
  - simpl. unfold names_after. simpl. now rewrite app_nil_r.
  - inversion ND as [| ? ? Hc ND']; subst. simpl fold_left.
    rewrite IH by assumption. rewrite names_upsert_eq. unfold names_after. simpl.
    destruct (mem (fst c) (names f)) eqn:M; simpl.
    + now rewrite app_nil_r.
    + rewrite <- app_assoc. simpl. f_equal. f_equal. apply filter_ext_in.
      intros x Hx. f_equal. unfold mem. rewrite existsb_app. simpl.
      rewrite orb_false_r.
      destruct (String.eqb x (fst c)) eqn:E; [| now rewrite orb_false_r].
      apply String.eqb_eq in E. subst x. contradiction.
Qed.

Lemma default_expr_name (f : Frame) (d : string * (Value * DType)) (e : Expr)
    (c : string * Series) :
  default_expr (names f) d = Ok e -> eval f e = Ok c -> fst c = fst d.
Proof.
  destruct d as [column [v dt]]. unfold default_expr. cbn [fst].
  destruct (mem column (names f)).
  - intros H Hc. injection H as <-. eapply eval_fill_name; eassumption.
  - intros H Hc. apply bind_Ok in H. destruct H as (s & _ & H). injection H as <-.
    simpl in Hc. now injection Hc as <-.
Qed.

Lemma default_exprs_names (f : Frame) (ds : list (string * (Value * DType)))
    (exprs : list Expr) (cols : Frame) :
  mapM (default_expr (names f)) ds = Ok exprs ->
  mapM (eval f) exprs = Ok cols ->
  names cols = map fst ds.
Proof.
  revert exprs cols. induction ds as [| d ds IH]; intros exprs cols H Hc; simpl in H.
  - injection H as <-. simpl in Hc. now injection Hc as <-.
  - apply bind_Ok in H. destruct H as (e & He & H).
    apply bind_Ok in H. destruct H as (es & Hes & H). injection H as <-.
    simpl in Hc. apply bind_Ok in Hc. destruct Hc as (c & Hc & H).
    apply bind_Ok in H. destruct H as (cs & Hcs & H). injection H as <-.
    simpl. now rewrite (default_expr_name f d e c He Hc), (IH es cs Hes Hcs).
Qed.

(** X10. [fill_null("defaults")] keeps the columns of the table in their
    places and puts the columns it creates after them, in the order of the
    schema's defaults; a column whose field declares no default is in the
    result as it was. *)
Theorem fill_null_other_columns (super_fill_null : option Strategy -> Frame -> Res Frame)
    (self out : DataFrame) (m : Model) :
  df_model self = Some m ->
  fill_null super_fill_null (Some Defaults) self = Ok out ->
  names (df_frame out)
  = names (df_frame self)
      ++ List.filter (fun x => negb (mem x (names (df_frame self)))) (map fst (defaults m))
  /\ (forall x,
        ~ In x (map fst (defaults m)) ->
        lookup x (df_frame out) = lookup x (df_frame self))
  /\ df_model out = Some m.
Proof.
  intros Hm H. unfold fill_null, fill_null_on in H. rewrite Hm in H. cbn [bind] in H.
  apply bind_Ok in H. destruct H as (exprs & Hexprs & H).
  apply bind_Ok in H. destruct H as (f' & Hwc & H). injection H as <-.
  cbn [set_model df_frame df_model]. unfold with_columns in Hwc.
  apply bind_Ok in Hwc. destruct Hwc as (cols0 & Hcols0 & Hwc).
  apply bind_Ok in Hwc. destruct Hwc as (cols' & Hu & Hwc).
  apply check_unique_Ok in Hu. destruct Hu as [-> ND].
  apply bind_Ok in Hwc. destruct Hwc as (cols & Hfit & Hwc). injection Hwc as <-.
  pose proof (mapM_fit_names _ _ _ Hfit) as Hn.
  pose proof (default_exprs_names _ _ _ _ Hexprs Hcols0) as Hd.
  rewrite <- Hn in ND. rewrite <- Hd, <- Hn.
  split; [| split; [| reflexivity]].
  - now apply names_fold_upsert.
  - intros x Hx. now apply lookup_fold_upsert_other.
Qed.

Lemma fill_null_other_columns_witness :
  names (df_frame filled_df) = ["name"] ++ ["price"]
  /\ (forall x, ~ In x ["price"] -> lookup x (df_frame filled_df) = lookup x (df_frame unpriced_df))
  /\ df_model filled_df = Some Priced.
Proof.
  exact (fill_null_other_columns (fun _ f => Ok f) unpriced_df filled_df Priced
           eq_refl eq_refl).
Defined.

(** ** derive: building the plan *)

Lemma derive_roots_builds (rec : LazyFrame -> string -> Res (LazyFrame * list string))
    (root_cols : list string) :
  (forall r df, In r root_cols -> exists res, rec df r = Ok res) ->
  forall df acc, exists res, derive_roots rec root_cols df acc = Ok res.
Proof.
  induction root_cols as [| r rest IH]; intros Hrec df acc; simpl; [eauto |].
  destruct (Hrec r df (or_introl eq_refl)) as ([df' d] & ->). simpl.
  apply IH. intros r' df'' Hr'. apply Hrec. now right.
Qed.

Lemma derive_column_builds (m : Model) (rank : string -> nat) :
  acyclic m rank -> well_typed m ->
  forall fuel df name,
    rank name < fuel -> exists res, _derive_column fuel m df name = Ok res.
Proof.
  intros Hacyclic Htyped. induction fuel as [| fuel IH]; intros df name Hlt; [lia |].
  simpl. destruct (column_info m name) as [info |] eqn:Hinfo; [| eauto].
  apply column_info_name in Hinfo. destruct Hinfo as [Hname Hin].
  destruct (field_derived_from info) as [[source | e | ty] |] eqn:Hd; eauto.
  - destruct (derive_roots_builds (_derive_column fuel m) (List.rev (root_names e)))
      with (df := df) (acc := @nil string) as ([df' d] & ->).
    + intros r df' Hr. apply IH. apply in_rev in Hr.
      specialize (Hacyclic info e r Hin Hd Hr). rewrite Hname in Hacyclic. lia.
    + simpl. eauto.
  - exfalso. exact (Htyped info ty Hin Hd).
Qed.

Lemma derive_loop_builds (m : Model) (fuel : nat) (to_derive : list string) :
  (forall name df, In name to_derive -> exists res, _derive_column fuel m df name = Ok res) ->
  forall self acc, exists res, derive_loop fuel m to_derive self acc = Ok res.
Proof.
  induction to_derive as [| c rest IH]; intros Hc self acc; simpl; [eauto |].
  assert (Hrest : forall name df,
             In name rest -> exists res, _derive_column fuel m df name = Ok res)
    by (intros name df Hn; apply Hc; now right).
  destruct (mem c acc); [now apply IH |].
  destruct (Hc c self (or_introl eq_refl)) as ([self' d] & ->). simpl. now apply IH.
Qed.

(** X11. On a schema whose derivations are strings or expressions and
    have no cycle among their roots, [LazyFrame.derive] always builds its
    plan, whatever the table holds: no error is raised before the plan is
    collected. *)
Theorem derive_builds_plan (so : SetOrder) (fuel : nat) (self : DataFrame) (m : Model)
    (columns : option (list string)) (rank : string -> nat) :
  df_model self = Some m ->
  acyclic m rank ->
  well_typed m ->
  (forall name, In name (to_derive_of so m columns) -> rank name < fuel) ->
  exists lf, derive so fuel (lazy self) columns = Ok lf.
Proof.
  intros Hm Hacyclic Htyped Hfuel. unfold derive, get_model.
  rewrite schema_names_lazy.
  replace (lf_model (lazy self)) with (Some m) by (symmetry; exact Hm). cbn [bind].
  destruct (derive_loop_builds m fuel (to_derive_of so m columns)) with
      (self := lazy self) (acc := @nil string) as ([self' d] & ->).
  - intros name df Hin. eapply derive_column_builds; eauto.
  - simpl. eauto.
Qed.

Lemma derive_builds_plan_witness :
  exists lf, derive insertion_order 3 (lazy (mkDataFrame [] (Some Chain))) None = Ok lf.
Proof.
  refine (derive_builds_plan insertion_order 3 (mkDataFrame [] (Some Chain)) Chain None
            chain_rank eq_refl _ _ _).
  - intros fi e r Hfi He Hr. simpl in Hfi.
    destruct Hfi as [<- | [<- | [<- | []]]]; simpl in He; try discriminate;
      injection He as <-; simpl in Hr; destruct Hr as [<- | []]; vm_compute; lia.
  - intros fi ty Hfi. simpl in Hfi.
    destruct Hfi as [<- | [<- | [<- | []]]]; discriminate.
  - intros name Hin. simpl in Hin.
    destruct Hin as [<- | [<- | []]]; vm_compute; lia.
Defined.

(** ** unalias: a field that only has its alias *)

(** X12. For a field whose canonical column is not in the input and whose
    alias (not the empty string) resolves to an expression, the column that
    [unalias] gives the field is that expression's column. *)
Theorem unalias_takes_alias (self out : DataFrame) (m : Model) (fi : FieldInfo)
    (va : ValidationAlias) (e : Expr) :
  df_model self = Some m ->
  rectangular (df_frame self) ->
  In fi (model_fields m) ->
  field_validation_alias fi = Some va ->
  va <> AliasStr "" ->
  lookup (field_name fi) (df_frame self) = None ->
  to_expr (Ok (names (df_frame self))) va = Ok (Some e) ->
  DataFrame_unalias self = Ok out ->
  exists a,
    eval (df_frame self) e = Ok a
    /\ lookup (field_name fi) (df_frame out) = Some (snd a).
Proof.
  intros Hm Hrect Hin Hva Hne Hc He H.
  assert (Hun : unalias (lazy self)
                = if negb (existsb (fun fi => alias_truthy (field_validation_alias fi))
                             (model_fields m))
                  then Ok (lazy self)
                  else exprs <- unalias_exprs (Ok (names (df_frame self))) (model_fields m) ;;
                       Ok (lf_select exprs (lazy self))).
  { unfold unalias, get_model. rewrite schema_names_lazy.
    replace (lf_model (lazy self)) with (Some m) by (symmetry; exact Hm). reflexivity. }
  assert (G : existsb (fun fi => alias_truthy (field_validation_alias fi)) (model_fields m)
              = true).
  { apply existsb_exists. exists fi. split; [assumption |]. rewrite Hva.
    destruct va as [name | |]; try reflexivity. simpl.
    destruct (String.eqb name "") eqn:E0; [| reflexivity].
    apply String.eqb_eq in E0. congruence. }
  unfold DataFrame_unalias in H. rewrite Hun, G in H. cbn [negb] in H.
  apply bind_Ok in H. destruct H as (lf & Hlf & H).
  apply bind_Ok in Hlf. destruct Hlf as (exprs & Hexprs & Hlf). injection Hlf as <-.
  unfold collect in H. cbn [lf_select lazy lf_plan lf_source lf_model List.app] in H.
  rewrite run_plan_cons in H. cbn [run_op] in H.
  apply bind_Ok in H. destruct H as (fr & H & E). injection E as <-. cbn [df_frame].
  apply bind_Ok in H. destruct H as (fr' & Hsel & E). injection E as <-.
  apply select_column_exprs in Hsel;
    [| assumption | eapply unalias_exprs_column_expr; eassumption].
  destruct Hsel as [Hcols ND].
  destruct (unalias_exprs_In _ _ _ _ Hexprs Hin) as (this & Hthis & Hincl).
  unfold unalias_field in Hthis. rewrite Hva, He in Hthis. simpl in Hthis.
  assert (M : mem (field_name fi) (names (df_frame self)) = false).
  { destruct (mem (field_name fi) (names (df_frame self))) eqn:M; [| reflexivity].
    apply lookup_mem in M. destruct M as (s & Hs). congruence. }
  rewrite M in Hthis. injection Hthis as <-.
  destruct (mapM_In _ _ _ _ Hcols (Hincl _ (or_introl eq_refl))) as (c0 & Hc0 & Hc0in).
  simpl in Hc0. apply bind_Ok in Hc0. destruct Hc0 as ([na a] & Ha & Hc0).
  injection Hc0 as <-.
  exists (na, a). split; [assumption |]. now apply In_lookup.
Qed.

Lemma unalias_takes_alias_witness :
  exists a,
    eval (df_frame renamed_df) (Col "A") = Ok a
    /\ lookup "a" (df_frame renamed_out) = Some (snd a).
Proof.
  refine (unalias_takes_alias renamed_df renamed_out Aliased
            (alias_field "a" Int64 (AliasStr "A")) (AliasStr "A") (Col "A")
            eq_refl _ _ eq_refl _ eq_refl eq_refl eq_refl).
  - repeat constructor.
  - left. reflexivity.
  - intros H. discriminate H.
Defined.

(** ** cast: the dtypes of the result *)

Lemma cast_collected (strict : bool) (columns : option (list string))
    (self out : DataFrame) (m : Model) :
  df_model self = Some m ->
  NoDup (names (df_frame self)) ->
  rectangular (df_frame self) ->
  DataFrame_cast strict columns self = Ok out ->
  Forall2
    (fun c c' =>
       fst c' = fst c
       /\ coerced (decision m strict (target_columns columns (names (df_frame self)))
                     (fst c) (dtype (snd c))) (snd c) (snd c'))
    (df_frame self) (df_frame out).
Proof.
  intros Hm ND Hrect H. set (f := df_frame self) in *.
  set (targets := target_columns columns (names f)).
  set (decide := fun c : string * Series => decision m strict targets (fst c) (dtype (snd c))).
  unfold DataFrame_cast, cast, get_model in H.
  replace (lf_model (lazy self)) with (Some m) in H by (symmetry; exact Hm).
  cbn [bind] in H. unfold collect_schema in H.
  cbn [lazy lf_plan lf_source run_plan fold_left bind] in H. fold f in H.
  assert (Hn : map fst (map (fun c : string * Series => (fst c, dtype (snd c))) f) = names f)
    by (rewrite map_map; reflexivity).
  rewrite Hn in H. fold targets in H.
  assert (Hexprs : map (cast_expr m strict targets)
                     (map (fun c => (fst c, dtype (snd c))) f)
                   = map (fun c => coerce (fst c) (decide c)) f).
  { rewrite map_map. apply map_ext. intros c. apply cast_expr_decision. }
  rewrite Hexprs in H. unfold collect in H.
  cbn [lf_with_columns lazy lf_plan lf_source lf_model List.app] in H.
  rewrite run_plan_cons in H. cbn [run_op] in H. fold f in H.
  apply bind_Ok in H. destruct H as (fr & H & E). injection E as <-. cbn [df_frame].
  apply bind_Ok in H. destruct H as (fr' & Hwc & E). injection E as <-.
  unfold with_columns in Hwc.
  apply bind_Ok in Hwc. destruct Hwc as (cols & Hcols & Hwc).
  apply bind_Ok in Hwc. destruct Hwc as (cols' & Hu & Hwc).
  apply check_unique_Ok in Hu. destruct Hu as [-> _].
  apply bind_Ok in Hwc. destruct Hwc as (fitted & Hfit & Hwc). injection Hwc as <-.
  assert (Hall : forall l cols,
             incl l f ->
             mapM (eval f) (map (fun c => coerce (fst c) (decide c)) l) = Ok cols ->
             Forall2 (fun c c' => fst c' = fst c /\ coerced (decide c) (snd c) (snd c'))
               l cols).
  { induction l as [| c l IH]; intros cols1 Hincl Hm1; simpl in Hm1.
    - injection Hm1 as <-. constructor.
    - apply bind_Ok in Hm1. destruct Hm1 as (c0 & Hc0 & Hm1).
      apply bind_Ok in Hm1. destruct Hm1 as (rest & Hrest & Hm1). injection Hm1 as <-.
      constructor.
      + eapply eval_coerce; [exact ND | apply Hincl; now left | exact Hc0].
      + apply IH; [| exact Hrest]. intros x Hx. apply Hincl. now right. }
  specialize (Hall f cols (incl_refl f) Hcols).
  assert (Hnames : names cols = names f) by (eapply coerced_names; exact Hall).
  assert (Hlen : all_length (height f) cols)
    by (eapply coerced_all_length; [exact Hrect | exact Hall]).
  assert (Hfitted : fitted = cols).
  { destruct f as [| c0 f0] eqn:Ef.
    - destruct cols; [| discriminate]. simpl in Hfit. now injection Hfit as <-.
    - rewrite mapM_fit_same in Hfit by exact Hlen. now injection Hfit as <-. }
  subst fitted. rewrite fold_upsert_same_names by assumption. exact Hall.
Qed.

Lemma cast_series_dtype (dt : DType) (s s' : Series) :
  cast_series dt s = Ok s' -> dtype s' = dt.
Proof.
  unfold cast_series. destruct (traverse _ _); [| discriminate].
  intros H. now injection H as <-.
Qed.

Lemma Forall2_In_r {A B : Type} (R : A -> B -> Prop) (l : list A) (l' : list B) (y : B) :
  Forall2 R l l' -> In y l' -> exists x, In x l /\ R x y.
Proof.
  induction 1 as [| a b l l' Hab _ IH]; intros Hy; [contradiction |].
  destruct Hy as [-> | Hy].
  - exists a. split; [now left | assumption].
  - destruct (IH Hy) as (x & Hx & HR). exists x. split; [now right | assumption].
Qed.

(** X13. After [cast] over all columns, a column that is a field of the
    schema has the field's explicit dtype when there is one; otherwise it
    has the field's default dtype or, when [strict] is false, a dtype the
    field accepts. *)
Theorem cast_result_dtypes (strict : bool) (self out : DataFrame) (m : Model)
    (x : string) (s' : Series) (fi : FieldInfo) :
  df_model self = Some m ->
  NoDup (names (df_frame self)) ->
  rectangular (df_frame self) ->
  DataFrame_cast strict None self = Ok out ->
  lookup x (df_frame out) = Some s' ->
  column_info m x = Some fi ->
  cast_dtype_ok fi strict (dtype s').
Proof.
  intros Hm ND Hrect H Hx Hfi.
  pose proof (cast_collected strict None self out m Hm ND Hrect H) as Hall.
  apply lookup_In in Hx.
  destruct (Forall2_In_r _ _ _ _ Hall Hx) as (c & Hin & Hn & Hco).
  cbn [fst snd target_columns] in Hn, Hco. subst x.
  unfold decision in Hco. rewrite Hfi in Hco.
  replace (mem (fst c) (names (df_frame self))) with true in Hco
    by (symmetry; apply mem_In; now apply in_map).
  unfold policy in Hco. unfold cast_dtype_ok.
  destruct (field_props_dtype fi) as [override |].
  - now apply cast_series_dtype in Hco.
  - destruct strict; cbn [negb andb] in Hco.
    + left. now apply cast_series_dtype in Hco.
    + destruct (dtype_in (dtype (snd c)) (field_valid_dtypes fi)) eqn:V; simpl in Hco.
      * subst s'. right. now split.
      * left. now apply cast_series_dtype in Hco.
Qed.

Lemma cast_result_dtypes_witness :
  cast_dtype_ok (mkField "count" Int64 [Int64; UInt8; UInt16] None None None None)
    true Int64.
Proof.
  refine (cast_result_dtypes true plain_df plain_strict Plain "count"
            (mkSeries Int64 [VInt 8]) _ eq_refl _ _ eq_refl eq_refl eq_refl).
  - repeat (constructor; [simpl; intuition discriminate |]). constructor.
  - repeat constructor.
Defined.
